(** * rufl: command resolver, shell-need classifier, output multiplexer,
    process supervisor and signal coordinator

  A shallow embedding of [main.go].  Go strings are byte strings, modelled
  by [string]; the process-wide variables of the program are passed
  explicitly; everything the program obtains from the operating system
  (tokenizer result, pipes, spawn, child output, wait status, clock) is an
  explicit input of the function that consumes it.

  Part I holds the definitions: the library functions the program calls,
  then [processCommands], [needsShell], [processOutput], [executeCommand]
  statement by statement, the signal listener, and the run of a pool of
  executions beside the listener.  Part II holds the properties. *)

From Stdlib Require Import ZArith String Ascii List Lia.
From Stdlib Require Import DecimalString DecimalZ DecimalPos.
From stdpp Require Import gmap strings list.

Open Scope string_scope.
Open Scope list_scope.
Open Scope Z_scope.

(* ===================================================================== *)
(** * Part I: definitions                                                *)
(* ===================================================================== *)

(** ** The functions of Go's [strings] and [fmt] packages the program calls *)

Module GoStrings.

(** [len(s)] *)
Definition len (s : string) : Z := Z.of_nat (String.length s).

(** [strings.HasPrefix(s, prefix)] *)
Definition HasPrefix (s prefix : string) : bool := String.prefix prefix s.

(** [strings.Index(s, substr)]: the byte offset of the first occurrence of
    [substr] in [s], or [-1]. *)
Fixpoint Index (s substr : string) : Z :=
  if String.prefix substr s then 0
  else match s with
       | EmptyString => -1
       | String _ rest =>
           let r := Index rest substr in
           if r <? 0 then -1 else r + 1
       end.

(** [strings.Contains(s, substr)] is [Index(s, substr) >= 0]. *)
Definition Contains (s substr : string) : bool := Index s substr >=? 0.

(** The slices [s[:n]] and [s[n:]], within range. *)
Fixpoint slice_to (n : nat) (s : string) : string :=
  match n, s with
  | S k, String c rest => String c (slice_to k rest)
  | _, _ => EmptyString
  end.

Fixpoint slice_from (n : nat) (s : string) : string :=
  match n, s with
  | S k, String _ rest => slice_from k rest
  | _, _ => s
  end.

(** The loop of [genSplit]: at most [k] cuts, then the remainder. *)
Fixpoint genSplit (k : nat) (s sep : string) : list string :=
  match k with
  | O => [s]
  | S k' =>
      let m := Index s sep in
      if m <? 0 then [s]
      else slice_to (Z.to_nat m) s
             :: genSplit k' (slice_from (Z.to_nat m + String.length sep) s) sep
  end.

(** [strings.SplitN(s, sep, n)] for a non-empty separator and [n >= 0]:
    no result for [n = 0], otherwise at most [n] pieces, the last one the
    unsplit remainder.  (The program only calls it with [":"] and [2].) *)
Definition SplitN (s sep : string) (n : nat) : list string :=
  match n with
  | O => []
  | S k => genSplit k s sep
  end.

(** [fmt.Sprintf("%d", n)] *)
Definition itoa (n : Z) : string := NilZero.string_of_int (Z.to_int n).

(** The line feed, ["\n"]. *)
Definition newline : string := String "010" EmptyString.

End GoStrings.

(** ** Command Resolver: [processCommands] *)

Module Resolver.
Import GoStrings.

(** [type CommandInfo struct { Command string; Tag string; Index int }] *)
Record CommandInfo := mkCommandInfo {
  Command : string;
  Tag : string;
  Index : Z
}.

(** The anonymous [struct { Tag string; Command string }] of
    [taggedCommands]. *)
Record TaggedCommand := mkTagged {
  tcTag : string;
  tcCommand : string
}.

(** What a call leaves behind: the value returned, or [os.Exit(code)]. *)
Inductive Outcome (A : Type) :=
| Returned (a : A)
| Exited (code : Z).
Arguments Returned {A} a.
Arguments Exited {A} code.

(** The variables of [processCommands] that its first two loops update,
    with the lines written to standard output. *)
Record Partition := mkPartition {
  regularArgs : list string;
  taggedCommands : list TaggedCommand;
  printed : list string
}.

Definition warn_inline (arg : string) : string :=
  "Warning: Invalid tag format '" +:+ arg +:+ "', expected '+NAME:COMMAND'" +:+ newline.

Definition warn_flag (tag : string) : string :=
  "Warning: Invalid tag format '" +:+ tag +:+ "', expected 'NAME:COMMAND'" +:+ newline.

(** Body of [for _, arg := range args]. *)
Definition arg_step (st : Partition) (arg : string) : Partition :=
  if HasPrefix arg "+" && Contains arg ":" then
    match SplitN (slice_from 1 arg) ":" 2 with
    | [t; c] =>
        mkPartition (regularArgs st)
                    (taggedCommands st ++ [mkTagged t c])
                    (printed st)
    | _ =>
        mkPartition (regularArgs st) (taggedCommands st)
                    (printed st ++ [warn_inline arg])
    end
  else
    mkPartition (regularArgs st ++ [arg]) (taggedCommands st) (printed st).

(** Body of [for _, tag := range tags]. *)
Definition tag_step (st : Partition) (tag : string) : Partition :=
  match SplitN tag ":" 2 with
  | [t; c] =>
      mkPartition (regularArgs st)
                  (taggedCommands st ++ [mkTagged t c])
                  (printed st)
  | _ =>
      mkPartition (regularArgs st) (taggedCommands st)
                  (printed st ++ [warn_flag tag])
  end.

(** The inner loop [for j, taggedCmd := range taggedCommands]: the index
    and tag of the first entry whose command is [cmd]; the loop breaks
    there. *)
Fixpoint first_match (cmd : string) (pool : list TaggedCommand) (j : nat)
  : option (nat * string) :=
  match pool with
  | [] => None
  | tc :: rest =>
      if String.eqb (tcCommand tc) cmd then Some (j, tcTag tc)
      else first_match cmd rest (S j)
  end.

(** [append(taggedCommands[:j], taggedCommands[j+1:]...)] *)
Definition remove_at (j : nat) (pool : list TaggedCommand)
  : list TaggedCommand :=
  take j pool ++ drop (S j) pool.

(** [for i, cmd := range regularArgs], from index [i] on, with the
    commands appended so far in [acc]. *)
Fixpoint regular_loop (i : Z) (regs : list string)
         (pool : list TaggedCommand) (acc : list CommandInfo)
  : list CommandInfo * list TaggedCommand :=
  match regs with
  | [] => (acc, pool)
  | cmd :: rest =>
      match first_match cmd pool 0 with
      | Some (j, tag) =>
          regular_loop (i + 1) rest (remove_at j pool)
                       (acc ++ [mkCommandInfo cmd tag i])
      | None =>
          regular_loop (i + 1) rest pool
                       (acc ++ [mkCommandInfo cmd (itoa (i + 1)) i])
      end
  end.

(** [for _, taggedCmd := range taggedCommands] with [remainingIndex]. *)
Fixpoint remaining_loop (remainingIndex : Z) (pool : list TaggedCommand)
         (acc : list CommandInfo) : list CommandInfo :=
  match pool with
  | [] => acc
  | tc :: rest =>
      remaining_loop (remainingIndex + 1) rest
        (acc ++ [mkCommandInfo (tcCommand tc) (tcTag tc) remainingIndex])
  end.

Definition no_commands : string :=
  "Error: No commands specified. Use positional arguments, +tag:command syntax, or -t/--tag flags."
  +:+ newline.

(** [processCommands(args)], reading the global [tags]: the text printed
    and the outcome. *)
Definition processCommands (tags args : list string)
  : list string * Outcome (list CommandInfo) :=
  let st0 := mkPartition [] [] [] in
  let st1 := fold_left arg_step args st0 in
  let st2 := fold_left tag_step tags st1 in
  let '(commands, pool) :=
    regular_loop 0 (regularArgs st2) (taggedCommands st2) [] in
  let commands := remaining_loop (Z.of_nat (length (regularArgs st2)))
                                 pool commands in
  match commands with
  | [] => (printed st2 ++ [no_commands], Exited 1)
  | _ => (printed st2, Returned commands)
  end.

(** *** The resolver as the specification words it *)

(** An argument is inline-tagged iff it begins with [+] and contains a
    [:]. *)
Definition is_inline (arg : string) : bool :=
  match arg with
  | String c rest =>
      Ascii.eqb c "+" && existsb (Ascii.eqb ":") (list_ascii_of_string rest)
  | EmptyString => false
  end.

(** Split on the first [:]: the name before it and the command after it. *)
Fixpoint parse_decl (s : string) : option TaggedCommand :=
  match s with
  | EmptyString => None
  | String c rest =>
      if Ascii.eqb c ":" then Some (mkTagged EmptyString rest)
      else match parse_decl rest with
           | Some d => Some (mkTagged (String c (tcTag d)) (tcCommand d))
           | None => None
           end
  end.

Definition positional (args : list string) : list string :=
  filter (fun a => is_inline a = false) args.

Definition inline_decls (args : list string) : list TaggedCommand :=
  omap (fun a => if is_inline a then parse_decl (slice_from 1 a) else None)
       args.

Definition flag_decls (tags : list string) : list TaggedCommand :=
  omap parse_decl tags.

(** The pending-tag pool: inline declarations, then flag declarations. *)
Definition pending_pool (tags args : list string) : list TaggedCommand :=
  inline_decls args ++ flag_decls tags.

(** The first declaration for [cmd]: its tag, and the pool without it. *)
Fixpoint adopt (cmd : string) (pool : list TaggedCommand)
  : option (string * list TaggedCommand) :=
  match pool with
  | [] => None
  | d :: rest =>
      if String.eqb (tcCommand d) cmd then Some (tcTag d, rest)
      else match adopt cmd rest with
           | Some (t, rest') => Some (t, d :: rest')
           | None => None
           end
  end.

(** Positional commands from position [pos] on, then the unconsumed
    declarations with the indices that follow. *)
Fixpoint leftover_items (pos : nat) (pool : list TaggedCommand)
  : list CommandInfo :=
  match pool with
  | [] => []
  | d :: rest =>
      mkCommandInfo (tcCommand d) (tcTag d) (Z.of_nat pos)
        :: leftover_items (S pos) rest
  end.

Fixpoint resolve_from (pos : nat) (cmds : list string)
         (pool : list TaggedCommand) : list CommandInfo :=
  match cmds with
  | [] => leftover_items pos pool
  | cmd :: rest =>
      match adopt cmd pool with
      | Some (t, pool') =>
          mkCommandInfo cmd t (Z.of_nat pos)
            :: resolve_from (S pos) rest pool'
      | None =>
          mkCommandInfo cmd (itoa (Z.of_nat pos + 1)) (Z.of_nat pos)
            :: resolve_from (S pos) rest pool
      end
  end.

Definition work_list (tags args : list string) : list CommandInfo :=
  resolve_from 0 (positional args) (pending_pool tags args).

(** Every work item of a returned list carries a non-empty tag. *)
Definition tags_nonempty (o : Outcome (list CommandInfo)) : Prop :=
  match o with
  | Returned items => Forall (fun item => Tag item <> EmptyString) items
  | Exited _ => True
  end.

End Resolver.

(** ** Shell-Need Classifier: [needsShell] *)

Module Classifier.
Import GoStrings.

(** The double quote, as a one-byte string. *)
Definition dquote : string := String "034" EmptyString.

(** [var shellSpecialChars = []string{...}] *)
Definition shellSpecialChars : list string :=
  ["|"; "&"; ";"; "<"; ">"; "("; ")"; "$"; "`"; "\"; dquote; "'"; "*"; "?";
   "["; "]"; "#"; "~"; "="; "%"].

(** [for _, char := range shellSpecialChars], returning at the first hit. *)
Fixpoint special_loop (command : string) (chars : list string) : bool :=
  match chars with
  | [] => false
  | char :: rest =>
      if Contains command char then true else special_loop command rest
  end.

(** [needsShell(command)], reading the globals [forceShell] and [envVars]. *)
Definition needsShell (forceShell : bool) (envVars : list string)
           (command : string) : bool :=
  if forceShell then true
  else if Z.of_nat (length envVars) >? 0 then true
  else if special_loop command shellSpecialChars then true
  else if Contains command "&&" || Contains command "||" || Contains command ";"
  then true
  else if Contains command ">" || Contains command "<" then true
  else if Contains command "|" then true
  else if Contains command "*" || Contains command "?" || Contains command "["
  then true
  else false.

(** The shell metacharacters the specification lists, as bytes. *)
Definition metacharacters : list ascii :=
  ["|"; "&"; ";"; "<"; ">"; "("; ")"; "$"; "`"; "\"; "034"; "'"; "*"; "?";
   "["; "]"; "#"; "~"; "="; "%"]%char.

(** The command text contains at least one metacharacter. *)
Definition has_metacharacter (command : string) : Prop :=
  exists c, In c metacharacters /\ In c (list_ascii_of_string command).

End Classifier.

(** ** Output Multiplexer: [processOutput] and [printColoredMessage] *)

Module Multiplexer.
Import GoStrings.

(** The flags the command line sets ([noColor], [envVars], [forceShell])
    and the terminal capability ([colorSupported]). *)
Record Config := mkConfig {
  noColor : bool;
  colorSupported : bool;
  envVars : list string;
  forceShell : bool
}.

(** The escape byte [\033]. *)
Definition esc : string := String "027" EmptyString.

Definition colorReset : string := esc +:+ "[0m".
Definition colorRed : string := esc +:+ "[31m".
Definition colorGreen : string := esc +:+ "[32m".
Definition colorYellow : string := esc +:+ "[33m".
Definition colorBlue : string := esc +:+ "[34m".
Definition colorPurple : string := esc +:+ "[35m".
Definition colorCyan : string := esc +:+ "[36m".

(** Standard output is the list of the writes made to it: [fmt.Print(s)]
    appends [s], [fmt.Println(s)] appends [s] and a line feed. *)
Definition Print (s : string) (stdout : list string) : list string :=
  stdout ++ [s].
Definition Println (s : string) (stdout : list string) : list string :=
  stdout ++ [s +:+ newline].

(** [printColoredMessage(message, color)] *)
Definition printColoredMessage (cfg : Config) (message color : string)
           (stdout : list string) : list string :=
  if noColor cfg || negb (colorSupported cfg) then Println message stdout
  else Println (color +:+ message +:+ colorReset) stdout.

(** *** [bufio.Scanner] with the default split function [ScanLines]

    The scanner holds the bytes of the token it is assembling in a buffer
    that grows up to [MaxScanTokenSize]; when the buffer is full and holds
    no line feed, [Scan] fails with [ErrTooLong].  At the end of the input
    (end of file or a read error) the bytes held are a last token.  How the
    reads cut the input does not change the tokens, so the reader is given
    by the bytes it delivers and by how it ends.  *)

Definition MaxScanTokenSize : Z := 64 * 1024.

Inductive ReadEnd :=
| EOF
| ReadError (msg : string).

Record Reader := mkReader {
  content : string;
  ending : ReadEnd
}.

Definition ErrTooLong : string := "bufio.Scanner: token too long".

(** [dropCR]: a token loses one trailing carriage return. *)
Fixpoint dropCR (data : string) : string :=
  match data with
  | EmptyString => EmptyString
  | String c EmptyString => if Ascii.eqb c "013" then EmptyString else data
  | String c rest => String c (dropCR rest)
  end.

(** What one call of [Scan] finds in the input not yet consumed. *)
Inductive Token :=
| Line (token rest : string)
| Drained
| TooLong.

(** The next token of [data], [held] bytes of it being in the buffer
    already: up to the first line feed, or up to the end of the input. *)
Fixpoint next_line (held : Z) (data : string) : Token :=
  match data with
  | EmptyString => if held =? 0 then Drained else Line EmptyString EmptyString
  | String c rest =>
      if Ascii.eqb c "010" then Line EmptyString rest
      else if held + 1 >=? MaxScanTokenSize then TooLong
      else match next_line (held + 1) rest with
           | Line token rest' => Line (String c token) rest'
           | other => other
           end
  end.

(** One iteration of the body of [for scanner.Scan()]. *)
Definition write_line (cfg : Config) (tag streamType color line : string)
           (stdout : list string) : list string :=
  if noColor cfg || negb (colorSupported cfg) then
    let prefix := "[" +:+ tag +:+ ":" +:+ streamType +:+ "] " in
    Println (prefix +:+ line) stdout
  else
    let prefix := "[" +:+ tag +:+ "] " in
    Print (color +:+ prefix +:+ colorReset +:+ line +:+ newline) stdout.

(** [for scanner.Scan() { line := scanner.Text(); ... }]: the output, and
    whether the loop ended on [ErrTooLong].  Every token consumes at least
    one byte, so [fuel] beyond the length of the input is never used. *)
Fixpoint scan_loop (fuel : nat) (cfg : Config) (data : string)
         (tag streamType color : string) (stdout : list string)
  : list string * bool :=
  match fuel with
  | O => (stdout, false)
  | S fuel' =>
      match next_line 0 data with
      | Line token rest =>
          scan_loop fuel' cfg rest tag streamType color
                    (write_line cfg tag streamType color (dropCR token) stdout)
      | Drained => (stdout, false)
      | TooLong => (stdout, true)
      end
  end.

(** [scanner.Err()]: [ErrTooLong], or the error that ended the input, end
    of file being none. *)
Definition scanner_Err (too_long : bool) (e : ReadEnd) : option string :=
  if too_long then Some ErrTooLong
  else match e with
       | EOF => None
       | ReadError msg => Some msg
       end.

(** [processOutput(pipe, tag, streamType, color)] *)
Definition processOutput (cfg : Config) (pipe : Reader)
           (tag streamType color : string) (stdout : list string)
  : list string :=
  let '(stdout, too_long) :=
    scan_loop (S (String.length (content pipe))) cfg (content pipe)
              tag streamType color stdout in
  match scanner_Err too_long (ending pipe) with
  | Some err =>
      printColoredMessage cfg
        ("[" +:+ tag +:+ "] Error reading " +:+ streamType +:+ ": " +:+ err)
        colorRed stdout
  | None => stdout
  end.

(** *** The multiplexer as the specification words it *)

(** The newline-delimited lines of a byte stream; the last one may lack its
    line feed. *)
Fixpoint lines_of (data : string) : list string :=
  match data with
  | EmptyString => []
  | String c rest =>
      if Ascii.eqb c "010" then EmptyString :: lines_of rest
      else match lines_of rest with
           | [] => [String c EmptyString]
           | l :: ls => String c l :: ls
           end
  end.

(** The tagged output line for [line]: without color, the tag and the
    stream kind in brackets; with color, the colored tag alone. *)
Definition tagged_line (cfg : Config) (tag streamType color line : string)
  : string :=
  if noColor cfg || negb (colorSupported cfg)
  then "[" +:+ tag +:+ ":" +:+ streamType +:+ "] " +:+ line
  else color +:+ "[" +:+ tag +:+ "] " +:+ colorReset +:+ line.

(** A line the scanner can hold, and the lines before the first one it
    cannot. *)
Definition fits (line : string) : bool := len line <? MaxScanTokenSize.

Fixpoint deliverable (lines : list string) : list string :=
  match lines with
  | [] => []
  | l :: rest => if fits l then l :: deliverable rest else []
  end.

(** The lines the loop gets from the scanner, carriage returns dropped. *)
Definition lines_read (data : string) : list string :=
  map dropCR (deliverable (lines_of data)).

(** The message for the error [err] of the stream, as written. *)
Definition read_error_line (cfg : Config) (tag streamType err : string)
  : string :=
  let message := "[" +:+ tag +:+ "] Error reading " +:+ streamType +:+ ": " +:+ err in
  (if noColor cfg || negb (colorSupported cfg) then message
   else colorRed +:+ message +:+ colorReset) +:+ newline.

(** A byte repeated [n] times. *)
Fixpoint repeat_byte (c : ascii) (n : nat) : string :=
  match n with
  | O => EmptyString
  | S k => String c (repeat_byte c k)
  end.

End Multiplexer.

(** ** Process Supervisor: [executeCommand], [runCommands] *)

Module Supervisor.
Import GoStrings Resolver Classifier Multiplexer.

(** The signals [signal.Notify] registers, with their numbers and the text
    [%v] prints for them. *)
Inductive Signal := SIGHUP | SIGINT | SIGTERM.

Definition signum (sig : Signal) : Z :=
  match sig with
  | SIGHUP => 1
  | SIGINT => 2
  | SIGTERM => 15
  end.

Definition Signal_String (sig : Signal) : string :=
  match sig with
  | SIGHUP => "hangup"
  | SIGINT => "interrupt"
  | SIGTERM => "terminated"
  end.

(** What reaches a child: [Process.Signal(sig)] or [Process.Kill()]. *)
Inductive Delivery :=
| Sig (sig : Signal)
| Kill.

(** An [exec.Cmd]: [Process] is nil until [Start] succeeds and holds the
    child's pid from then on; [waited] records that [Wait] has returned. *)
Record Cmd := mkCmd {
  Path : string;
  Args : list string;
  Env : list string;
  Process : option Z;
  waited : bool
}.

(** The process-wide variables ([activeCommands], [parallelMode],
    [lastSigIntTime], [currentSequentialCmd]), the [exec.Cmd] objects they
    point to, standard output, and what was sent to the children.
    [*exec.Cmd] pointers are addresses in [heap]; a [time.Time] is a number
    of nanoseconds, the zero time being 0. *)
Record State := mkState {
  heap : gmap nat Cmd;
  nextCmd : nat;
  activeCommands : gmap string nat;
  parallelMode : bool;
  lastSigIntTime : Z;
  currentSequentialCmd : option nat;
  stdout : list string;
  signalled : list (Z * Delivery)
}.

Definition with_heap (h : gmap nat Cmd) (n : nat) (st : State) : State :=
  mkState h n (activeCommands st) (parallelMode st) (lastSigIntTime st)
          (currentSequentialCmd st) (stdout st) (signalled st).

Definition with_activeCommands (m : gmap string nat) (st : State) : State :=
  mkState (heap st) (nextCmd st) m (parallelMode st) (lastSigIntTime st)
          (currentSequentialCmd st) (stdout st) (signalled st).

Definition with_parallelMode (b : bool) (st : State) : State :=
  mkState (heap st) (nextCmd st) (activeCommands st) b (lastSigIntTime st)
          (currentSequentialCmd st) (stdout st) (signalled st).

Definition with_lastSigIntTime (t : Z) (st : State) : State :=
  mkState (heap st) (nextCmd st) (activeCommands st) (parallelMode st) t
          (currentSequentialCmd st) (stdout st) (signalled st).

Definition with_currentSequentialCmd (c : option nat) (st : State) : State :=
  mkState (heap st) (nextCmd st) (activeCommands st) (parallelMode st)
          (lastSigIntTime st) c (stdout st) (signalled st).

Definition with_stdout (out : list string) (st : State) : State :=
  mkState (heap st) (nextCmd st) (activeCommands st) (parallelMode st)
          (lastSigIntTime st) (currentSequentialCmd st) out (signalled st).

Definition with_signalled (l : list (Z * Delivery)) (st : State) : State :=
  mkState (heap st) (nextCmd st) (activeCommands st) (parallelMode st)
          (lastSigIntTime st) (currentSequentialCmd st) (stdout st) l.

(** The state [main] starts from. *)
Definition initial : State :=
  mkState ∅ 0 ∅ false 0 None [] [].

(** The host: [runtime.GOOS == "windows"] and [os.Environ()]. *)
Record Host := mkHost {
  windows : bool;
  environ : list string
}.

(** What the outside gives one execution of a command: the tokenizer's
    answer, whether the pipes could be made, whether the child started and
    with which pid, what it wrote, and how the wait ended. *)
Inductive Tokens :=
| TokenError (msg : string)
| Tokenized (args : list string).

Inductive StartResult :=
| StartError (msg : string)
| Started (pid : Z).

Inductive WaitResult :=
| WaitOk
| ExitError (status : Z)
| WaitError (msg : string).

Record Run := mkRun {
  shlex_Split : Tokens;
  StdoutPipe : option string;
  StderrPipe : option string;
  Start : StartResult;
  child_stdout : Reader;
  child_stderr : Reader;
  Wait : WaitResult
}.

(** [printColoredMessage] and [fmt.Printf] on the state. *)
Definition say (cfg : Config) (message color : string) (st : State) : State :=
  with_stdout (printColoredMessage cfg message color (stdout st)) st.

Definition printf (text : string) (st : State) : State :=
  with_stdout (Print text (stdout st)) st.

(** [exec.Command(name, arg...)]: a new object, not started. *)
Definition exec_Command (name : string) (args : list string) (st : State)
  : nat * State :=
  (nextCmd st,
   with_heap (<[nextCmd st := mkCmd name (name :: args) [] None false]> (heap st))
             (S (nextCmd st)) st).

(** [strings.Join(elems, sep)] *)
Fixpoint Join (elems : list string) (sep : string) : string :=
  match elems with
  | [] => EmptyString
  | [e] => e
  | e :: rest => e +:+ sep +:+ Join rest sep
  end.

(** [fmt.Sprintf("%s-%d", tag, pid)] *)
Definition cmdID_of (tag : string) (pid : Z) : string :=
  tag +:+ "-" +:+ itoa pid.

(** Where a call of [executeCommand] stands: before the statement named,
    with the local variables that are live there. *)
Inductive Point :=
| AtBuild
| AtRecord (cmd : nat)
| AtSetup (cmd : nat)
| AtStart (cmd : nat)
| AtStore (cmd : nat) (pid : Z)
| AtOutput (cmd : nat) (cmdID : string)
| AtWait (cmd : nat) (cmdID : string)
| AtDelete (cmd : nat) (cmdID : string) (err : WaitResult)
| AtClear (err : WaitResult)
| AtReport (err : WaitResult)
| Returned_.

(** One statement (or group of statements without effect on the shared
    variables) of [executeCommand].  The two goroutines that read the
    child's output are joined before [cmd.Wait]; their writes are taken
    stream by stream, standard output first. *)
Definition exec_step (host : Host) (cfg : Config) (run : Run)
           (cmdInfo : CommandInfo) (pt : Point) (st : State) : Point * State :=
  let tag := Tag cmdInfo in
  match pt with
  | AtBuild =>
      if needsShell (forceShell cfg) (envVars cfg) (Command cmdInfo) then
        let shell := if windows host then "cmd" else "sh" in
        let shellArg := if windows host then "/C" else "-c" in
        let '(cmd, st) := exec_Command shell [shellArg; Command cmdInfo] st in
        (AtRecord cmd,
         say cfg ("[" +:+ tag +:+ "] Executing with shell: " +:+ Command cmdInfo)
             colorCyan st)
      else
        match shlex_Split run with
        | TokenError err =>
            (Returned_,
             say cfg ("[" +:+ tag +:+ "] Error parsing command: " +:+ err)
                 colorRed st)
        | Tokenized [] =>
            (Returned_, say cfg ("[" +:+ tag +:+ "] Empty command") colorRed st)
        | Tokenized (name :: args) =>
            let '(cmd, st) := exec_Command name args st in
            (AtRecord cmd,
             say cfg ("[" +:+ tag +:+ "] Executing directly: " +:+ Command cmdInfo)
                 colorCyan st)
        end
  | AtRecord cmd =>
      (AtSetup cmd,
       if negb (parallelMode st) then with_currentSequentialCmd (Some cmd) st
       else st)
  | AtSetup cmd =>
      let env := if Z.of_nat (length (envVars cfg)) >? 0
                 then environ host ++ envVars cfg else environ host in
      let st := with_heap (alter (fun c => mkCmd (Path c) (Args c) env
                                                 (Process c) (waited c))
                                 cmd (heap st))
                          (nextCmd st) st in
      match StdoutPipe run with
      | Some err =>
          (Returned_,
           printf ("Error creating stdout pipe for command " +:+ tag +:+ ": "
                   +:+ err +:+ newline) st)
      | None =>
          match StderrPipe run with
          | Some err =>
              (Returned_,
               printf ("Error creating stderr pipe for command " +:+ tag +:+ ": "
                       +:+ err +:+ newline) st)
          | None =>
              (AtStart cmd,
               if Z.of_nat (length (envVars cfg)) >? 0
               then say cfg ("[" +:+ tag +:+ "] With additional environment: "
                             +:+ Join (envVars cfg) ", ") colorPurple st
               else st)
          end
      end
  | AtStart cmd =>
      match Start run with
      | StartError err =>
          (Returned_,
           say cfg ("[" +:+ tag +:+ "] Error starting command: " +:+ err)
               colorRed st)
      | Started pid =>
          (AtStore cmd pid,
           with_heap (alter (fun c => mkCmd (Path c) (Args c) (Env c)
                                            (Some pid) (waited c))
                            cmd (heap st))
                     (nextCmd st) st)
      end
  | AtStore cmd pid =>
      let cmdID := cmdID_of tag pid in
      (AtOutput cmd cmdID,
       with_activeCommands (<[cmdID := cmd]> (activeCommands st)) st)
  | AtOutput cmd cmdID =>
      let out := processOutput cfg (child_stdout run) tag "out" colorGreen
                               (stdout st) in
      let out := processOutput cfg (child_stderr run) tag "err" colorRed out in
      (AtWait cmd cmdID, with_stdout out st)
  | AtWait cmd cmdID =>
      (AtDelete cmd cmdID (Wait run),
       with_heap (alter (fun c => mkCmd (Path c) (Args c) (Env c)
                                        (Process c) true)
                        cmd (heap st))
                 (nextCmd st) st)
  | AtDelete cmd cmdID err =>
      (AtClear err, with_activeCommands (delete cmdID (activeCommands st)) st)
  | AtClear err =>
      (AtReport err,
       if negb (parallelMode st) then with_currentSequentialCmd None st else st)
  | AtReport err =>
      (Returned_,
       match err with
       | ExitError status =>
           say cfg ("[" +:+ tag +:+ "] Command exited with status: "
                    +:+ itoa status) colorYellow st
       | WaitError msg =>
           say cfg ("[" +:+ tag +:+ "] Error waiting for command: " +:+ msg)
               colorRed st
       | WaitOk =>
           say cfg ("[" +:+ tag +:+ "] Command completed successfully")
               colorGreen st
       end)
  | Returned_ => (Returned_, st)
  end.

(** How many statements are left at most before the return. *)
Definition statements_left (pt : Point) : nat :=
  match pt with
  | AtBuild => 10
  | AtRecord _ => 9
  | AtSetup _ => 8
  | AtStart _ => 7
  | AtStore _ _ => 6
  | AtOutput _ _ => 5
  | AtWait _ _ => 4
  | AtDelete _ _ _ => 3
  | AtClear _ => 2
  | AtReport _ => 1
  | Returned_ => 0
  end.

(** [n] statements on from a point. *)
Fixpoint exec_steps (n : nat) (host : Host) (cfg : Config) (run : Run)
         (cmdInfo : CommandInfo) (ps : Point * State) : Point * State :=
  match n with
  | O => ps
  | S k => exec_steps k host cfg run cmdInfo
                      (exec_step host cfg run cmdInfo (fst ps) (snd ps))
  end.

(** [executeCommand(cmdInfo)]: the ten statements from the first, which
    reach the return whatever path is taken. *)
Definition executeCommand (host : Host) (cfg : Config) (run : Run)
           (cmdInfo : CommandInfo) (st : State) : State :=
  snd (exec_steps 10 host cfg run cmdInfo (AtBuild, st)).

(** [runSequential(commands)], each command with what the outside gives
    it. *)
Definition runSequential (host : Host) (cfg : Config)
           (commands : list (CommandInfo * Run)) (st : State) : State :=
  fold_left (fun st c => executeCommand host cfg (snd c) (fst c) st) commands st.

(** *** The program as a pool of executions

    [runCommands] sets [parallelMode] and starts the executions:
    [runSequential] one after the other, [runParallel] each in a goroutine
    of its own.  The signal listener runs beside them (module [Signals]). *)

Record Thread := mkThread {
  t_info : CommandInfo;
  t_run : Run;
  t_point : Point
}.

(** In sequential mode an execution runs when those before it returned; in
    parallel mode any execution that has not returned may run. *)
Definition may_run (parallel : bool) (pool : list Thread) (i : nat) : Prop :=
  parallel = true \/ Forall (fun t => t_point t = Returned_) (take i pool).

Inductive thread_step (host : Host) (cfg : Config)
  : list Thread * State -> list Thread * State -> Prop :=
| thread_step_at (pool : list Thread) (st : State) (i : nat) (t : Thread) :
    pool !! i = Some t ->
    t_point t <> Returned_ ->
    may_run (parallelMode st) pool i ->
    thread_step host cfg (pool, st)
      (<[i := mkThread (t_info t) (t_run t)
                       (fst (exec_step host cfg (t_run t) (t_info t) (t_point t) st))]> pool,
       snd (exec_step host cfg (t_run t) (t_info t) (t_point t) st)).

(** An execution that has returned. *)
Definition returned (c : CommandInfo * Run) : Thread :=
  mkThread (fst c) (snd c) Returned_.

(** [runCommands(commands, parallel)] at its start. *)
Definition launch (parallel : bool) (commands : list (CommandInfo * Run))
  : list Thread * State :=
  (map (fun c => mkThread (fst c) (snd c) AtBuild) commands,
   with_parallelMode parallel initial).

(** The command has an entry in the registry. *)
Definition registered (st : State) (cmd : nat) : Prop :=
  exists cmdID, activeCommands st !! cmdID = Some cmd.

(** The child of the command has been started and [Wait] has not returned
    for it. *)
Definition running (st : State) (cmd : nat) : Prop :=
  exists c pid, heap st !! cmd = Some c /\ Process c = Some pid /\ waited c = false.

(** The two places where the registry is one statement behind the child:
    after [Start] returned and before [Store], and after [Wait] returned
    and before [Delete]. *)
Definition between_start_and_store (pt : Point) (cmd : nat) : Prop :=
  exists pid, pt = AtStore cmd pid.

Definition between_wait_and_delete (pt : Point) (cmd : nat) : Prop :=
  exists cmdID err, pt = AtDelete cmd cmdID err.

End Supervisor.

(** ** Signal Coordinator: the listener of [setupSignalHandling] *)

Module Signals.
Import GoStrings Resolver Classifier Multiplexer Supervisor.

(** [time.Second], [Time.IsZero] and [Time.Sub], whose result is a
    [Duration]: 64 bits of nanoseconds, saturating. *)
Definition Second : Z := 1000000000.
Definition minDuration : Z := - 2 ^ 63.
Definition maxDuration : Z := 2 ^ 63 - 1.

Definition IsZero (t : Z) : bool := t =? 0.

Definition Sub (t u : Z) : Z := Z.max minDuration (Z.min maxDuration (t - u)).

(** [cmd.Process.Signal(sig)] or [cmd.Process.Kill()] under the guard
    [cmd.Process != nil]; on a child already waited for both fail with
    [os.ErrProcessDone], and the listener drops the error. *)
Definition signal_process (cmd : nat) (d : Delivery) (st : State) : State :=
  match heap st !! cmd with
  | Some c =>
      match Process c with
      | Some pid =>
          if waited c then st
          else with_signalled (signalled st ++ [(pid, d)]) st
      | None => st
      end
  | None => st
  end.

(** What the [Range] callback sends for [sig]. *)
Definition broadcast_delivery (host : Host) (sig : Signal) : Delivery :=
  match sig with
  | SIGHUP => if windows host then Kill else Sig sig
  | _ => Sig sig
  end.

(** [activeCommands.Range(...)]: every entry, in the map's order. *)
Definition broadcast (host : Host) (sig : Signal) (st : State) : State :=
  fold_left (fun st entry => signal_process (snd entry) (broadcast_delivery host sig) st)
            (map_to_list (activeCommands st)) st.

(** One iteration of [for sig := range signalChan]: the listener goes on,
    or the program ends by [os.Exit(code)]. *)
Inductive Handled :=
| Listening (st : State)
| Exit (code : Z) (st : State).

Definition double_interrupt_notice : string :=
  "Double Ctrl+C detected. Exiting...".

Definition press_again_notice : string :=
  "Interrupting current command. Press Ctrl+C again within 1 second to exit rufl.".

Definition is_SIGINT (sig : Signal) : bool :=
  match sig with SIGINT => true | _ => false end.

Definition is_SIGTERM (sig : Signal) : bool :=
  match sig with SIGTERM => true | _ => false end.

(** The body of the loop for the signal [sig] received when [time.Now()]
    is [now]. *)
Definition handle_signal (host : Host) (cfg : Config) (sig : Signal) (now : Z)
           (st : State) : Handled :=
  if is_SIGINT sig && negb (parallelMode st) then
    if negb (IsZero (lastSigIntTime st))
       && (Sub now (lastSigIntTime st) <? Second)
    then Exit 130 (say cfg double_interrupt_notice colorYellow st)
    else
      let st := with_lastSigIntTime now st in
      let st := say cfg press_again_notice colorYellow st in
      let st := match currentSequentialCmd st with
                | Some cmd => signal_process cmd (Sig sig) st
                | None => st
                end in
      Listening st
  else
    let st := say cfg ("Received signal: " +:+ Signal_String sig
                       +:+ ". Forwarding to all child processes...")
                  colorYellow st in
    let st := broadcast host sig st in
    if (is_SIGINT sig || is_SIGTERM sig) && parallelMode st then
      Exit (128 + signum sig) st
    else if is_SIGTERM sig && negb (parallelMode st) then
      Exit (128 + signum sig) st
    else Listening st.

(** The child a signal for the command [cmd] reaches, if any: the command
    has a process and has not been waited for. *)
Definition target (st : State) (cmd : nat) (d : Delivery) : list (Z * Delivery) :=
  match heap st !! cmd with
  | Some c =>
      match Process c with
      | Some pid => if waited c then [] else [(pid, d)]
      | None => []
      end
  | None => []
  end.

(** Two states with the same heap, registry, mode and current command:
    they differ in what was written, what was sent and the time of the last
    interrupt only. *)
Definition same_shared (st st' : State) : Prop :=
  heap st' = heap st /\ nextCmd st' = nextCmd st /\
  activeCommands st' = activeCommands st /\ parallelMode st' = parallelMode st /\
  currentSequentialCmd st' = currentSequentialCmd st.

(** The listener beside the executions: a signal that does not end the
    program leaves the executions where they are. *)
Inductive signal_step (host : Host) (cfg : Config)
  : list Thread * State -> list Thread * State -> Prop :=
| signal_step_at (pool : list Thread) (st st' : State) (sig : Signal) (now : Z) :
    handle_signal host cfg sig now st = Listening st' ->
    signal_step host cfg (pool, st) (pool, st').

Definition sys_step (host : Host) (cfg : Config)
           (x y : list Thread * State) : Prop :=
  thread_step host cfg x y \/ signal_step host cfg x y.

(** The configurations a run of [runCommands(commands, parallel)] passes
    through. *)
Definition reachable (host : Host) (cfg : Config) (parallel : bool)
           (commands : list (CommandInfo * Run)) (x : list Thread * State) : Prop :=
  rtc (sys_step host cfg) (launch parallel commands) x.

(** The pids the operating system gives the children of one run are
    non-negative and differ from one another. *)
Definition started_pid (c : CommandInfo * Run) : option Z :=
  match Start (snd c) with
  | Started pid => Some pid
  | StartError _ => None
  end.

Definition distinct_pids (commands : list (CommandInfo * Run)) : Prop :=
  (forall i c pid,
      commands !! i = Some c -> started_pid c = Some pid -> 0 <= pid) /\
  (forall i j ci cj pid,
      commands !! i = Some ci -> commands !! j = Some cj ->
      started_pid ci = Some pid -> started_pid cj = Some pid -> i = j).

End Signals.

(** ** What holds of the pool and the shared variables throughout a run *)

Module Invariants.
Import GoStrings Resolver Classifier Multiplexer Supervisor Signals.

(** No byte of the text is a dash. *)
Definition dash_free (s : string) : Prop :=
  Forall (fun c => c <> "-"%char) (list_ascii_of_string s).

(** The command an execution holds in its variable [cmd]. *)
Definition owner (pt : Point) : option nat :=
  match pt with
  | AtRecord c | AtSetup c | AtStart c | AtStore c _
  | AtOutput c _ | AtWait c _ | AtDelete c _ _ => Some c
  | _ => None
  end.

(** The registry entry an execution has stored and not yet deleted. *)
Definition entry_of (pt : Point) : option (string * nat) :=
  match pt with
  | AtOutput c k | AtWait c k | AtDelete c k _ => Some (k, c)
  | _ => None
  end.

(** The command whose child an execution has started and not yet waited
    for. *)
Definition child_of (pt : Point) : option nat :=
  match pt with
  | AtStore c _ | AtOutput c _ | AtWait c _ => Some c
  | _ => None
  end.

(** Some execution of the pool other than the [i]-th satisfies [P]. *)
Definition another_thread (pool : list Thread) (i : nat) (P : Thread -> Prop)
  : Prop :=
  exists j tj, j <> i /\ pool !! j = Some tj /\ P tj.

(** What the heap holds for the command of an execution. *)
Definition thread_ok (st : State) (t : Thread) : Prop :=
  match t_point t with
  | AtRecord c | AtSetup c | AtStart c =>
      exists o, heap st !! c = Some o /\ Process o = None /\ waited o = false
  | AtStore c pid =>
      Start (t_run t) = Started pid /\
      exists o, heap st !! c = Some o /\ Process o = Some pid /\ waited o = false
  | AtOutput c k | AtWait c k =>
      exists pid, Start (t_run t) = Started pid /\
                  k = cmdID_of (Tag (t_info t)) pid /\
      exists o, heap st !! c = Some o /\ Process o = Some pid /\ waited o = false
  | AtDelete c k _ =>
      exists pid, Start (t_run t) = Started pid /\
                  k = cmdID_of (Tag (t_info t)) pid /\
      exists o, heap st !! c = Some o /\ waited o = true
  | _ => True
  end.

Record Inv (commands : list (CommandInfo * Run)) (pool : list Thread)
       (st : State) : Prop := mkInv {
  inv_pool : map (fun t => (t_info t, t_run t)) pool = commands;
  inv_threads : forall i t, pool !! i = Some t -> thread_ok st t;
  inv_owner : forall i j ti tj c,
      pool !! i = Some ti -> pool !! j = Some tj ->
      owner (t_point ti) = Some c -> owner (t_point tj) = Some c -> i = j;
  inv_heap : forall c, is_Some (heap st !! c) -> (c < nextCmd st)%nat;
  inv_running : forall c, running st c ->
      exists i t, pool !! i = Some t /\ child_of (t_point t) = Some c;
  inv_registry : forall k c,
      activeCommands st !! k = Some c <->
      exists i t, pool !! i = Some t /\ entry_of (t_point t) = Some (k, c)
}.

(** The statements by what they do to the heap, the allocation counter and
    the registry. *)
Definition quiet (pt pt' : Point) : Prop :=
  match pt, pt' with
  | AtBuild, Returned_ => True
  | AtRecord c, AtSetup c' => c = c'
  | AtStart c, Returned_ => True
  | AtOutput c k, AtWait c' k' => c = c' /\ k = k'
  | AtClear _, AtReport _ => True
  | AtReport _, Returned_ => True
  | Returned_, Returned_ => True
  | _, _ => False
  end.

Inductive effect (tag : string) (run : Run)
  : Point -> State -> Point -> State -> Prop :=
| eff_quiet pt pt' st st' :
    quiet pt pt' ->
    heap st' = heap st -> nextCmd st' = nextCmd st ->
    activeCommands st' = activeCommands st ->
    effect tag run pt st pt' st'
| eff_alloc st st' o :
    Process o = None -> waited o = false ->
    heap st' = <[nextCmd st := o]> (heap st) ->
    nextCmd st' = S (nextCmd st) ->
    activeCommands st' = activeCommands st ->
    effect tag run AtBuild st (AtRecord (nextCmd st)) st'
| eff_env c pt' st st' f :
    pt' = Returned_ \/ pt' = AtStart c ->
    (forall o, Process (f o) = Process o /\ waited (f o) = waited o) ->
    heap st' = alter f c (heap st) -> nextCmd st' = nextCmd st ->
    activeCommands st' = activeCommands st ->
    effect tag run (AtSetup c) st pt' st'
| eff_start c pid st st' :
    Start run = Started pid ->
    heap st' = alter (fun o => mkCmd (Path o) (Args o) (Env o) (Some pid) (waited o))
                     c (heap st) ->
    nextCmd st' = nextCmd st ->
    activeCommands st' = activeCommands st ->
    effect tag run (AtStart c) st (AtStore c pid) st'
| eff_store c pid st st' :
    heap st' = heap st -> nextCmd st' = nextCmd st ->
    activeCommands st' = <[cmdID_of tag pid := c]> (activeCommands st) ->
    effect tag run (AtStore c pid) st (AtOutput c (cmdID_of tag pid)) st'
| eff_wait c k st st' :
    heap st' = alter (fun o => mkCmd (Path o) (Args o) (Env o) (Process o) true)
                     c (heap st) ->
    nextCmd st' = nextCmd st ->
    activeCommands st' = activeCommands st ->
    effect tag run (AtWait c k) st (AtDelete c k (Wait run)) st'
| eff_delete c k w st st' :
    heap st' = heap st -> nextCmd st' = nextCmd st ->
    activeCommands st' = delete k (activeCommands st) ->
    effect tag run (AtDelete c k w) st (AtClear w) st'.

End Invariants.

(** ** A run used in the examples: [rufl s "sleep 10" nosuchprogram] *)

Module Scenario.
Import GoStrings Resolver Classifier Multiplexer Supervisor Signals.

Definition host0 : Host := mkHost false ["PATH=/bin"].
Definition cfg0 : Config := mkConfig true false [] false.

Definition sleep_info : CommandInfo := mkCommandInfo "sleep 10" "1" 0.
Definition sleep_run : Run :=
  mkRun (Tokenized ["sleep"; "10"]) None None (Started 4242)
        (mkReader EmptyString EOF) (mkReader EmptyString EOF) WaitOk.

Definition missing_info : CommandInfo := mkCommandInfo "nosuchprogram" "2" 1.
Definition missing_run : Run :=
  mkRun (Tokenized ["nosuchprogram"]) None None
        (StartError "exec: nosuchprogram: executable file not found in $PATH")
        (mkReader EmptyString EOF) (mkReader EmptyString EOF) WaitOk.

Definition commands0 : list (CommandInfo * Run) :=
  [(sleep_info, sleep_run); (missing_info, missing_run)].

(** The first command after [n] statements, in sequential mode. *)
Definition sleep_after (n : nat) : Point * State :=
  exec_steps n host0 cfg0 sleep_run sleep_info (AtBuild, initial).

End Scenario.

(** ** The command line as the user writes it *)

Module ResolverTexts.
Import GoStrings Resolver.

(** The items of positional commands that no declaration names: the tag
    is the position counted from 1. *)
Fixpoint default_items (pos : nat) (cmds : list string) : list CommandInfo :=
  match cmds with
  | [] => []
  | cmd :: rest =>
      mkCommandInfo cmd (itoa (Z.of_nat pos + 1)) (Z.of_nat pos)
        :: default_items (S pos) rest
  end.

(** A declaration as the user writes it: [NAME:COMMAND] after [-t], and
    [+NAME:COMMAND] among the arguments. *)
Definition flag_text (d : TaggedCommand) : string :=
  tcTag d +:+ ":" +:+ tcCommand d.

Definition inline_text (d : TaggedCommand) : string :=
  String "+" (flag_text d).

End ResolverTexts.

(** ** The paths of [executeCommand] *)

Module ExecutionPaths.
Import GoStrings Resolver Classifier Multiplexer Supervisor.

(** The program and the argument vector [executeCommand] gives
    [exec.Command], when it gets that far. *)
Definition built_command (host : Host) (cfg : Config) (run : Run)
           (cmdInfo : CommandInfo) : option (string * list string) :=
  if needsShell (forceShell cfg) (envVars cfg) (Command cmdInfo) then
    let shell := if windows host then "cmd" else "sh" in
    let shellArg := if windows host then "/C" else "-c" in
    Some (shell, [shell; shellArg; Command cmdInfo])
  else
    match shlex_Split run with
    | Tokenized (name :: args) => Some (name, name :: args)
    | _ => None
    end.

(** The pid of the child, when [cmd.Start] is reached and succeeds. *)
Definition started_child (host : Host) (cfg : Config) (run : Run)
           (cmdInfo : CommandInfo) : option Z :=
  match built_command host cfg run cmdInfo, StdoutPipe run, StderrPipe run, Start run with
  | Some _, None, None, Started pid => Some pid
  | _, _, _, _ => None
  end.


End ExecutionPaths.

(** ** The pool of a sequential run *)

Module Scheduling.
Import GoStrings Resolver Classifier Multiplexer Supervisor Signals Invariants.

(** The registry when one execution alone is under way: its entry, if it
    has stored one and not yet deleted it. *)
Definition registry_of (pt : Point) : gmap string nat :=
  match entry_of pt with
  | Some (k, c) => {[k := c]}
  | None => ∅
  end.

(** The pool of a sequential run: the executions before some position have
    returned, those after it have not begun, and the registry is that of
    the execution at the position. *)
Definition one_at_a_time (pool : list Thread) (st : State) : Prop :=
  parallelMode st = false /\
  exists i : nat,
    (forall j t, pool !! j = Some t -> (j < i)%nat -> t_point t = Returned_) /\
    (forall j t, pool !! j = Some t -> (i < j)%nat -> t_point t = AtBuild) /\
    activeCommands st = match pool !! i with
                        | Some t => registry_of (t_point t)
                        | None => ∅
                        end.

End Scheduling.

(** ** Terminal colors: [color_unix.go] *)

Module Terminal.

(** [os.ModeCharDevice], the bit [1 << (32 - 1 - 10)] of a [FileMode]. *)
Definition ModeCharDevice : Z := Z.shiftl 1 21.

(** [isTerminal(fd)]: [fd] is not used; [stat] is what [os.Stdout.Stat()]
    gives, the mode bits or no value on an error. *)
Definition isTerminal (fd : Z) (stat : option Z) : bool :=
  match stat with
  | None => false
  | Some mode => negb (Z.land mode ModeCharDevice =? 0)
  end.

(** [enableVirtualTerminalProcessing()]: the value it gives
    [colorSupported]; [NO_COLOR] is [os.Getenv("NO_COLOR")], empty when the
    variable is not set. *)
Definition enableVirtualTerminalProcessing (fd : Z) (stat : option Z)
           (NO_COLOR : string) : bool :=
  isTerminal fd stat && String.eqb NO_COLOR EmptyString.

End Terminal.

(* ===================================================================== *)
(** * Part II: properties                                                *)
(* ===================================================================== *)

Import GoStrings Resolver Classifier Multiplexer Supervisor Signals Invariants Scenario.
Import ResolverTexts ExecutionPaths Scheduling Terminal.

(** ** Facts about the string functions *)

Section StringFacts.

Lemma Index_nil_eq (sub : string) :
  GoStrings.Index EmptyString sub = if String.prefix sub EmptyString then 0 else -1.
Proof. reflexivity. Qed.

Lemma Index_cons_eq (c : ascii) (s sub : string) :
  GoStrings.Index (String c s) sub =
    if String.prefix sub (String c s) then 0
    else if GoStrings.Index s sub <? 0 then -1 else GoStrings.Index s sub + 1.
Proof. reflexivity. Qed.

Lemma Index_lower (s sub : string) : -1 <= GoStrings.Index s sub.
Proof.
  induction s as [|c s IH]; [rewrite Index_nil_eq|rewrite Index_cons_eq].
  - destruct (String.prefix sub EmptyString); lia.
  - destruct (String.prefix sub (String c s)); [lia|].
    destruct (GoStrings.Index s sub <? 0) eqn:E; lia.
Qed.

Lemma Index_cons_char (a c : ascii) (s : string) :
  GoStrings.Index (String a s) (String c EmptyString) =
    if Ascii.eqb a c then 0
    else if GoStrings.Index s (String c EmptyString) <? 0 then -1
         else GoStrings.Index s (String c EmptyString) + 1.
Proof.
  simpl. destruct (ascii_dec c a) as [->|Hne].
  - rewrite Ascii.eqb_refl. now destruct s.
  - destruct (Ascii.eqb_spec a c) as [->|_]; [congruence|reflexivity].
Qed.

Lemma Index_nil_char (c : ascii) : GoStrings.Index EmptyString (String c EmptyString) = -1.
Proof. reflexivity. Qed.

(** A one-byte pattern occurs in [s] iff that byte is one of [s]. *)
Lemma Contains_char (s : string) (c : ascii) :
  Contains s (String c EmptyString) = existsb (Ascii.eqb c) (list_ascii_of_string s).
Proof.
  unfold Contains. induction s as [|a s IH].
  - reflexivity.
  - rewrite Index_cons_char. cbn [list_ascii_of_string existsb].
    rewrite (eqb_sym c a). destruct (Ascii.eqb a c); [reflexivity|].
    rewrite <- IH. cbn [orb].
    pose proof (Index_lower s (String c EmptyString)).
    destruct (GoStrings.Index s (String c EmptyString) <? 0) eqn:E; lia.
Qed.

Lemma prefix_app_l (a b s : string) :
  String.prefix (a +:+ b) s = true -> String.prefix a s = true.
Proof.
  revert s. induction a as [|x a IH]; intros s H.
  - now destruct s.
  - destruct s as [|y s]; [discriminate|]. simpl in *.
    destruct (ascii_dec x y); [auto|discriminate].
Qed.

(** Wherever [a ++ b] occurs, [a] occurs. *)
Lemma Contains_app_l (s a b : string) :
  Contains s (a +:+ b) = true -> Contains s a = true.
Proof.
  unfold Contains.
  induction s as [|c s IH]; [rewrite !Index_nil_eq|rewrite !Index_cons_eq].
  - destruct (String.prefix (a +:+ b) EmptyString) eqn:E; [|lia].
    now rewrite (prefix_app_l _ _ _ E).
  - destruct (String.prefix (a +:+ b) (String c s)) eqn:E.
    + now rewrite (prefix_app_l _ _ _ E).
    + intros H. destruct (String.prefix a (String c s)); [reflexivity|].
      destruct (GoStrings.Index s (a +:+ b) <? 0) eqn:E1; [lia|].
      assert ((GoStrings.Index s a >=? 0) = true) by (apply IH; lia).
      destruct (GoStrings.Index s a <? 0) eqn:E2; lia.
Qed.

(** [SplitN(s, ":", 2)] cuts at the first colon, when there is one. *)
Lemma SplitN_colon (s : string) :
  SplitN s ":" 2 =
    match parse_decl s with
    | Some d => [tcTag d; tcCommand d]
    | None => [s]
    end.
Proof.
  unfold SplitN, genSplit.
  induction s as [|a s IH]; [reflexivity|].
  rewrite Index_cons_char. cbn [parse_decl].
  destruct (Ascii.eqb a ":") eqn:Ea; [reflexivity|].
  pose proof (Index_lower s ":").
  destruct (GoStrings.Index s ":" <? 0) eqn:E.
  - destruct (parse_decl s); [discriminate|reflexivity].
  - destruct (parse_decl s) as [d|]; [|discriminate].
    replace (GoStrings.Index s ":" + 1 <? 0) with false by lia.
    injection IH as Ht Hc. cbn [tcTag tcCommand].
    replace (Z.to_nat (GoStrings.Index s ":" + 1)) with (S (Z.to_nat (GoStrings.Index s ":"))) by lia.
    cbn [slice_to slice_from Nat.add]. rewrite Ht.
    change (String.length ":") with 1%nat. rewrite Hc. reflexivity.
Qed.

Lemma parse_decl_Some_iff (s : string) :
  is_Some (parse_decl s) <-> Contains s ":" = true.
Proof.
  rewrite Contains_char.
  induction s as [|a s IH]; cbn [parse_decl list_ascii_of_string existsb].
  - split; [intros [? ?]|]; discriminate.
  - rewrite (eqb_sym ":" a). destruct (Ascii.eqb a ":"); cbn [orb]; [split; eauto|].
    rewrite <- IH. destruct (parse_decl s); split; intros [? ?]; eauto; discriminate.
Qed.

Lemma is_inline_eq (arg : string) :
  HasPrefix arg "+" && Contains arg ":" = is_inline arg.
Proof.
  destruct arg as [|c rest]; [reflexivity|].
  unfold HasPrefix, is_inline. rewrite !Contains_char.
  cbn [String.prefix list_ascii_of_string existsb].
  destruct (ascii_dec "+" c) as [<-|Hne].
  - destruct rest; reflexivity.
  - destruct (Ascii.eqb_spec c "+"); [congruence|reflexivity].
Qed.

Lemma itoa_nonempty (n : Z) : itoa n <> EmptyString.
Proof.
  unfold itoa. destruct n as [|p|p]; simpl; try discriminate.
  unfold NilZero.string_of_uint. destruct (Pos.to_uint p); discriminate.
Qed.

End StringFacts.

(** ** Command Resolver *)

Section ResolverFacts.

(** One iteration of the first loop, by the kind of argument. *)
Lemma arg_step_cases (st : Partition) (arg : string) :
  arg_step st arg =
    if is_inline arg then
      match parse_decl (slice_from 1 arg) with
      | Some d => mkPartition (regularArgs st) (taggedCommands st ++ [d]) (printed st)
      | None => mkPartition (regularArgs st) (taggedCommands st)
                            (printed st ++ [warn_inline arg])
      end
    else mkPartition (regularArgs st ++ [arg]) (taggedCommands st) (printed st).
Proof.
  unfold arg_step. rewrite is_inline_eq, SplitN_colon.
  destruct (is_inline arg); [|reflexivity].
  destruct (parse_decl (slice_from 1 arg)) as [[t c]|]; reflexivity.
Qed.

Lemma tag_step_cases (st : Partition) (tag : string) :
  tag_step st tag =
    match parse_decl tag with
    | Some d => mkPartition (regularArgs st) (taggedCommands st ++ [d]) (printed st)
    | None => mkPartition (regularArgs st) (taggedCommands st)
                          (printed st ++ [warn_flag tag])
    end.
Proof.
  unfold tag_step. rewrite SplitN_colon.
  destruct (parse_decl tag) as [[t c]|]; reflexivity.
Qed.

(** An inline-tagged argument always parses. *)
Lemma inline_parses (arg : string) :
  is_inline arg = true -> is_Some (parse_decl (slice_from 1 arg)).
Proof.
  destruct arg as [|c rest]; [discriminate|]. cbn [is_inline slice_from].
  intros H. apply andb_prop in H as [_ H].
  apply parse_decl_Some_iff. now rewrite Contains_char.
Qed.

Lemma fold_arg_step (args : list string) (st : Partition) :
  regularArgs (fold_left arg_step args st) = regularArgs st ++ positional args /\
  taggedCommands (fold_left arg_step args st) = taggedCommands st ++ inline_decls args /\
  printed (fold_left arg_step args st) = printed st.
Proof.
  revert st. induction args as [|arg args IH]; intros st.
  - cbn. now rewrite !app_nil_r.
  - cbn [fold_left]. destruct (IH (arg_step st arg)) as (Hr & Ht & Hp).
    rewrite Hr, Ht, Hp, arg_step_cases. unfold positional, inline_decls.
    rewrite filter_cons. cbn [omap list_omap].
    destruct (is_inline arg) eqn:E.
    + destruct (inline_parses arg E) as [d Hd]. rewrite Hd.
      cbn [regularArgs taggedCommands printed].
      rewrite decide_False by discriminate.
      now rewrite <- app_assoc.
    + cbn [regularArgs taggedCommands printed].
      rewrite decide_True by reflexivity.
      now rewrite <- app_assoc.
Qed.

Lemma fold_tag_step (tags : list string) (st : Partition) :
  regularArgs (fold_left tag_step tags st) = regularArgs st /\
  taggedCommands (fold_left tag_step tags st) = taggedCommands st ++ flag_decls tags.
Proof.
  revert st. induction tags as [|tag tags IH]; intros st.
  - cbn. now rewrite app_nil_r.
  - cbn [fold_left]. destruct (IH (tag_step st tag)) as (Hr & Ht).
    rewrite Hr, Ht, tag_step_cases. unfold flag_decls. cbn [omap list_omap].
    destruct (parse_decl tag) as [d|]; cbn [regularArgs taggedCommands].
    + now rewrite <- app_assoc.
    + easy.
Qed.

(** The index found by the inner loop is that of the declaration [adopt]
    takes, and the slice expression removes exactly that one. *)
Lemma first_match_adopt (cmd : string) (pool : list TaggedCommand) (j : nat) :
  match first_match cmd pool j with
  | Some (j', t) => (j <= j')%nat /\ adopt cmd pool = Some (t, remove_at (j' - j) pool)
  | None => adopt cmd pool = None
  end.
Proof.
  revert j. induction pool as [|d pool IH]; intros j; cbn [first_match adopt].
  - reflexivity.
  - destruct (String.eqb (tcCommand d) cmd).
    + split; [lia|]. rewrite Nat.sub_diag. reflexivity.
    + specialize (IH (S j)). destruct (first_match cmd pool (S j)) as [[j' t]|].
      * destruct IH as [Hle IH]. split; [lia|]. rewrite IH.
        replace (j' - j)%nat with (S (j' - S j)) by lia. reflexivity.
      * now rewrite IH.
Qed.

(** [adopt] takes the first declaration whose command is [cmd] and leaves
    the others in place. *)
Lemma adopt_first (cmd : string) (pool : list TaggedCommand) (t : string)
      (pool' : list TaggedCommand) :
  adopt cmd pool = Some (t, pool') <->
  exists before d after,
    pool = before ++ d :: after /\ pool' = before ++ after /\
    tcCommand d = cmd /\ tcTag d = t /\
    Forall (fun x => tcCommand x <> cmd) before.
Proof.
  revert pool'. induction pool as [|x pool IH]; intros pool'; cbn [adopt].
  - split; [discriminate|]. intros (b & d & a & H & _). now destruct b.
  - destruct (String.eqb_spec (tcCommand x) cmd) as [Heq|Hne].
    + split.
      * intros [= <- <-]. exists [], x, pool. repeat split; auto.
      * intros (b & d & a & H & -> & Hc & Ht & Hall).
        destruct b as [|y b]; cbn in H; injection H as -> ->.
        -- now rewrite Ht.
        -- inversion Hall; subst. contradiction.
    + split.
      * destruct (adopt cmd pool) as [[t0 r]|] eqn:E; [|discriminate].
        intros [= <- <-]. destruct (proj1 (IH r) eq_refl) as (b & d & a & -> & -> & Hc & Ht & Hall).
        exists (x :: b), d, a. repeat split; auto.
      * intros (b & d & a & H & -> & Hc & Ht & Hall).
        destruct b as [|y b]; cbn in H; injection H as -> ->; [contradiction|].
        inversion Hall; subst.
        rewrite (proj2 (IH (b ++ a))); [reflexivity|].
        exists b, d, a. repeat split; auto.
Qed.

Lemma adopt_None (cmd : string) (pool : list TaggedCommand) :
  adopt cmd pool = None <-> Forall (fun x => tcCommand x <> cmd) pool.
Proof.
  induction pool as [|x pool IH]; cbn [adopt].
  - split; auto.
  - destruct (String.eqb_spec (tcCommand x) cmd) as [Heq|Hne].
    + split; [discriminate|]. intros H. inversion H; subst. contradiction.
    + destruct (adopt cmd pool) as [[t0 r]|].
      * split; [discriminate|]. intros H. inversion H; subst.
        now apply IH in H3.
      * split; auto. intros _. constructor; [auto|now apply IH].
Qed.

Lemma remaining_loop_spec (n : nat) (pool : list TaggedCommand) (acc : list CommandInfo) :
  remaining_loop (Z.of_nat n) pool acc = acc ++ leftover_items n pool.
Proof.
  revert n acc. induction pool as [|d pool IH]; intros n acc; cbn.
  - now rewrite app_nil_r.
  - replace (Z.of_nat n + 1) with (Z.of_nat (S n)) by lia.
    rewrite IH, <- app_assoc. reflexivity.
Qed.

Lemma regular_loop_spec (regs : list string) (n : nat) (pool : list TaggedCommand)
      (acc : list CommandInfo) :
  remaining_loop (Z.of_nat (n + length regs))
                 (snd (regular_loop (Z.of_nat n) regs pool acc))
                 (fst (regular_loop (Z.of_nat n) regs pool acc))
  = acc ++ resolve_from n regs pool.
Proof.
  revert n pool acc. induction regs as [|cmd regs IH]; intros n pool acc.
  - cbn [regular_loop resolve_from fst snd length]. rewrite Nat.add_0_r.
    apply remaining_loop_spec.
  - cbn [regular_loop resolve_from length].
    pose proof (first_match_adopt cmd pool 0) as Hm.
    replace (Z.of_nat n + 1) with (Z.of_nat (S n)) by lia.
    replace (n + S (length regs))%nat with (S n + length regs)%nat by lia.
    destruct (first_match cmd pool 0) as [[j t]|].
    + destruct Hm as [_ Hm]. rewrite Hm, Nat.sub_0_r, IH, <- app_assoc. reflexivity.
    + rewrite Hm, IH, <- app_assoc. reflexivity.
Qed.

(** Indices are the positions in the work list. *)
Lemma leftover_items_index (pool : list TaggedCommand) (n k : nat) (item : CommandInfo) :
  leftover_items n pool !! k = Some item -> Index item = Z.of_nat (n + k).
Proof.
  revert n k. induction pool as [|d pool IH]; intros n k; cbn [leftover_items].
  - discriminate.
  - destruct k as [|k]; cbn.
    + intros [= <-]. cbn. lia.
    + intros H. apply IH in H. lia.
Qed.

Lemma resolve_from_index (cmds : list string) (pool : list TaggedCommand)
      (n k : nat) (item : CommandInfo) :
  resolve_from n cmds pool !! k = Some item -> Index item = Z.of_nat (n + k).
Proof.
  revert pool n k. induction cmds as [|c cmds IH]; intros pool n k; cbn [resolve_from].
  - apply leftover_items_index.
  - destruct (adopt c pool) as [[t pool']|]; destruct k as [|k]; cbn;
      try (intros [= <-]; cbn; lia); intros H; apply IH in H; lia.
Qed.

End ResolverFacts.

(** What [processCommands] returns, in terms of [work_list]. *)
Lemma processCommands_returns (tags args : list string) :
  snd (processCommands tags args) =
    match work_list tags args with
    | [] => Exited 1
    | items => Returned items
    end.
Proof.
  unfold processCommands, work_list, pending_pool.
  destruct (fold_arg_step args (mkPartition [] [] [])) as (Hr1 & Ht1 & _).
  destruct (fold_tag_step tags (fold_left arg_step args (mkPartition [] [] [])))
    as (Hr2 & Ht2).
  rewrite Hr1, Ht1 in *. cbn [regularArgs taggedCommands app] in *.
  set (st2 := fold_left tag_step tags _) in *.
  pose proof (regular_loop_spec (regularArgs st2) 0 (taggedCommands st2) []) as H.
  change (Z.of_nat 0) with 0 in H. cbn [Nat.add app] in H.
  destruct (regular_loop 0 (regularArgs st2) (taggedCommands st2) []) as [cs pool].
  cbn [fst snd] in H. rewrite H, Hr2, Ht2.
  destruct (resolve_from 0 (positional args) (inline_decls args ++ flag_decls tags));
    reflexivity.
Qed.

(** C1. [processCommands] returns the work list of the specification: the
    positional arguments in order, each at its position, tagged by the first
    pending declaration (inline ones, then flag ones) with the same command
    text, which leaves the pool, or else by the decimal of position + 1;
    then the unconsumed declarations in pool order with the next indices.
    When that list is empty the call does not return: the program exits
    with status 1. *)
Theorem processCommands_work_list (tags args : list string) :
  snd (processCommands tags args) =
    match work_list tags args with
    | [] => Exited 1
    | items => Returned items
    end.
Proof. exact (processCommands_returns tags args). Qed.

(** The three examples of the test suite that the specification quotes. *)
Example resolve_plain :
  snd (processCommands [] ["echo hello"; "echo world"]) =
    Returned [mkCommandInfo "echo hello" "1" 0; mkCommandInfo "echo world" "2" 1].
Proof. reflexivity. Qed.

Example resolve_tag_priority :
  snd (processCommands ["greeting:echo hello"] ["echo hello"; "echo world"]) =
    Returned [mkCommandInfo "echo hello" "greeting" 0; mkCommandInfo "echo world" "2" 1].
Proof. reflexivity. Qed.

Example resolve_unmatched_flag :
  snd (processCommands ["farewell:echo world"] ["echo hello"]) =
    Returned [mkCommandInfo "echo hello" "1" 0; mkCommandInfo "echo world" "farewell" 1].
Proof. reflexivity. Qed.

Section TagFacts.

Lemma parse_decl_tag_nonempty (s : string) (d : TaggedCommand) :
  HasPrefix s ":" = false -> parse_decl s = Some d -> tcTag d <> EmptyString.
Proof.
  destruct s as [|c s]; [discriminate|]. unfold HasPrefix.
  cbn [String.prefix parse_decl].
  destruct (ascii_dec ":" c) as [<-|Hne].
  - now destruct s.
  - intros _. destruct (Ascii.eqb_spec c ":") as [->|_]; [congruence|].
    destruct (parse_decl s); [|discriminate]. now intros [= <-].
Qed.

Lemma inline_decls_named (args : list string) :
  Forall (fun a => HasPrefix a "+:" = false) args ->
  Forall (fun d => tcTag d <> EmptyString) (inline_decls args).
Proof.
  induction 1 as [|a args Ha _ IH]; [constructor|].
  unfold inline_decls. cbn [omap list_omap].
  destruct (is_inline a) eqn:E; [|exact IH].
  destruct (parse_decl (slice_from 1 a)) as [d|] eqn:Ed; [|exact IH].
  constructor; [|exact IH].
  destruct a as [|c rest]; [discriminate|].
  cbn [slice_from] in Ed. apply (parse_decl_tag_nonempty rest); [|exact Ed].
  cbn [is_inline] in E. apply andb_prop in E as [Ec _].
  apply Ascii.eqb_eq in Ec as ->. unfold HasPrefix in *.
  cbn [String.prefix] in Ha. destruct (ascii_dec "+" "+"); [|congruence].
  destruct rest as [|r rest]; [reflexivity|exact Ha].
Qed.

Lemma flag_decls_named (tags : list string) :
  Forall (fun t => HasPrefix t ":" = false) tags ->
  Forall (fun d => tcTag d <> EmptyString) (flag_decls tags).
Proof.
  induction 1 as [|t tags Ht _ IH]; [constructor|].
  unfold flag_decls. cbn [omap list_omap].
  destruct (parse_decl t) as [d|] eqn:Ed; [|exact IH].
  constructor; [|exact IH]. now apply (parse_decl_tag_nonempty t).
Qed.

Lemma leftover_items_named (pool : list TaggedCommand) (n : nat) :
  Forall (fun d => tcTag d <> EmptyString) pool ->
  Forall (fun item => Tag item <> EmptyString) (leftover_items n pool).
Proof.
  intros H. revert n. induction H as [|d pool Hd _ IH]; intros n; cbn; constructor; auto.
Qed.

Lemma resolve_from_named (cmds : list string) (pool : list TaggedCommand) (n : nat) :
  Forall (fun d => tcTag d <> EmptyString) pool ->
  Forall (fun item => Tag item <> EmptyString) (resolve_from n cmds pool).
Proof.
  revert pool n. induction cmds as [|c cmds IH]; intros pool n Hpool; cbn [resolve_from].
  - now apply leftover_items_named.
  - destruct (adopt c pool) as [[t pool']|] eqn:E.
    + apply adopt_first in E as (b & d & a & -> & -> & _ & <- & _).
      apply Forall_app in Hpool as [Hb Hda]. inversion Hda; subst.
      constructor; [assumption|]. apply IH. apply Forall_app; auto.
    + constructor; [apply itoa_nonempty|]. now apply IH.
Qed.

End TagFacts.

(** C6, as the code has it.  A declaration whose name is empty gives a work
    item whose tag is empty: the resolver does not look at the name. *)
Lemma empty_name_gives_empty_tag :
  snd (processCommands [":cmd"] ["+:cmd"; "ls"]) =
    Returned [mkCommandInfo "ls" "1" 0; mkCommandInfo "cmd" "" 1;
              mkCommandInfo "cmd" "" 2]
  /\ ~ tags_nonempty (snd (processCommands [":cmd"] ["+:cmd"; "ls"])).
Proof.
  split; [reflexivity|].
  cbn. intros H. inversion H as [|? ? _ H1]; subst.
  inversion H1 as [|? ? Hne _]; subst. now apply Hne.
Qed.

(** C6, amended.  When no argument begins with [+:] and no flag declaration
    begins with [:], every work item of the returned list has a non-empty
    tag. *)
Theorem named_decls_tags_nonempty (tags args : list string) :
  Forall (fun a => HasPrefix a "+:" = false) args ->
  Forall (fun t => HasPrefix t ":" = false) tags ->
  tags_nonempty (snd (processCommands tags args)).
Proof.
  intros Hargs Htags. rewrite processCommands_returns.
  assert (Forall (fun item => Tag item <> EmptyString) (work_list tags args)) as H.
  { apply resolve_from_named. apply Forall_app.
    split; [now apply inline_decls_named|now apply flag_decls_named]. }
  destruct (work_list tags args); [exact I|exact H].
Qed.

(** The amended C6 at a list with a positional match, an inline declaration,
    a plain [+] argument and a malformed flag. *)
Lemma named_decls_tags_nonempty_witness :
  tags_nonempty
    (snd (processCommands ["greeting:echo hello"; "bad"]
                          ["echo hello"; "+x:ls -la"; "+plain"; "echo world"])).
Proof.
  apply named_decls_tags_nonempty; repeat constructor.
Defined.

(** C9.  For an argument that begins with [+]: when it contains a [:], the
    text after the [+] splits on the first [:] into exactly two parts, so no
    argument ever reaches the inline warning (the first loop prints
    nothing); when it contains none, it is appended to the positional
    commands unchanged. *)
Theorem inline_split_has_two_parts (arg : string) (st : Partition) :
  printed (arg_step st arg) = printed st /\
  (HasPrefix arg "+" = true ->
     (Contains arg ":" = true ->
        length (SplitN (slice_from 1 arg) ":" 2) = 2%nat /\
        regularArgs (arg_step st arg) = regularArgs st) /\
     (Contains arg ":" = false ->
        arg_step st arg =
          mkPartition (regularArgs st ++ [arg]) (taggedCommands st) (printed st))).
Proof.
  split; [|intros Hp; split; intros Hc].
  - rewrite arg_step_cases. destruct (is_inline arg) eqn:E; [|reflexivity].
    destruct (inline_parses arg E) as [d ->]. reflexivity.
  - assert (is_inline arg = true) as E by (rewrite <- is_inline_eq, Hp, Hc; reflexivity).
    destruct (inline_parses arg E) as [d Hd].
    rewrite arg_step_cases, E, SplitN_colon, Hd. split; reflexivity.
  - unfold arg_step. rewrite Hp, Hc. reflexivity.
Qed.

(** C9 at ["+web:serve :8080"] and ["+invalid-format"]. *)
Lemma inline_split_has_two_parts_witness :
  printed (arg_step (mkPartition [] [] []) "+web:serve :8080") = [] /\
  length (SplitN (slice_from 1 "+web:serve :8080") ":" 2) = 2%nat /\
  arg_step (mkPartition [] [] []) "+invalid-format" =
    mkPartition ["+invalid-format"] [] [].
Proof.
  destruct (inline_split_has_two_parts "+web:serve :8080" (mkPartition [] [] []))
    as [Hq [Hyes _]]; [reflexivity|].
  destruct (inline_split_has_two_parts "+invalid-format" (mkPartition [] [] []))
    as [_ [_ Hno]]; [reflexivity|].
  split; [exact Hq|]. split; [exact (proj1 (Hyes eq_refl))|exact (Hno eq_refl)].
Defined.

(** ** Shell-Need Classifier *)

Section ClassifierFacts.

Lemma special_loop_existsb (command : string) (chars : list string) :
  special_loop command chars = existsb (Contains command) chars.
Proof.
  induction chars as [|c chars IH]; [reflexivity|]. cbn.
  now destruct (Contains command c).
Qed.

Lemma shellSpecialChars_bytes :
  shellSpecialChars = map (fun c => String c EmptyString) metacharacters.
Proof. reflexivity. Qed.

Lemma special_loop_metacharacter (command : string) :
  special_loop command shellSpecialChars = true <-> has_metacharacter command.
Proof.
  rewrite special_loop_existsb, shellSpecialChars_bytes, existsb_exists.
  unfold has_metacharacter. split.
  - intros (x & Hin & Hc). apply in_map_iff in Hin as (c & <- & Hin).
    exists c. split; [exact Hin|].
    rewrite Contains_char in Hc. apply existsb_exists in Hc as (y & Hy & Heq).
    apply Ascii.eqb_eq in Heq as ->. exact Hy.
  - intros (c & Hin & Hc). exists (String c EmptyString).
    split; [apply in_map_iff; eauto|].
    rewrite Contains_char. apply existsb_exists. exists c.
    split; [exact Hc|apply Ascii.eqb_refl].
Qed.

(** The checks that follow the loop never fire once the loop found nothing:
    each looks for a string that begins with a listed character. *)
Lemma later_checks_redundant (command : string) :
  special_loop command shellSpecialChars = false ->
  Contains command "&&" = false /\ Contains command "||" = false /\
  Contains command ";" = false /\ Contains command ">" = false /\
  Contains command "<" = false /\ Contains command "|" = false /\
  Contains command "*" = false /\ Contains command "?" = false /\
  Contains command "[" = false.
Proof.
  rewrite special_loop_existsb. intros H.
  assert (forall x, In x shellSpecialChars -> Contains command x = false) as Hall.
  { intros x Hx. destruct (Contains command x) eqn:E; [|reflexivity].
    assert (existsb (Contains command) shellSpecialChars = true) as Ht
      by (apply existsb_exists; eauto).
    congruence. }
  assert (forall a b, In a shellSpecialChars -> Contains command (a +:+ b) = false) as Hpre.
  { intros a b Ha. destruct (Contains command (a +:+ b)) eqn:E; [|reflexivity].
    apply Contains_app_l in E. rewrite (Hall a Ha) in E. discriminate. }
  repeat split;
    first [ apply Hall; cbn; tauto
          | apply (Hpre "&" "&"); cbn; tauto
          | apply (Hpre "|" "|"); cbn; tauto ].
Qed.

End ClassifierFacts.

(** C3.  [needsShell] answers true exactly when the shell is forced, or an
    extra environment variable was supplied, or the command text contains
    one of the twenty listed characters; the later checks for [&&], [||] and
    the rest add nothing. *)
Theorem needsShell_iff (forceShell : bool) (envVars : list string) (command : string) :
  needsShell forceShell envVars command = true <->
  forceShell = true \/ envVars <> [] \/ has_metacharacter command.
Proof.
  unfold needsShell. destruct forceShell; [tauto|].
  destruct envVars as [|e envVars].
  - cbn [length Z.of_nat Z.gtb Z.compare].
    destruct (special_loop command shellSpecialChars) eqn:E.
    + apply special_loop_metacharacter in E. tauto.
    + destruct (later_checks_redundant command E)
        as (-> & -> & -> & -> & -> & -> & -> & -> & ->).
      cbn [orb]. split; [discriminate|].
      intros [H|[H|H]]; [discriminate|congruence|].
      apply special_loop_metacharacter in H. congruence.
  - assert ((Z.of_nat (length (e :: envVars)) >? 0) = true) as ->
      by (apply Z.gtb_lt; cbn [length]; lia).
    split; [intros _; right; left; discriminate|reflexivity].
Qed.

(** The examples of the specification. *)
Example needsShell_examples :
  needsShell false [] "echo hello" = false /\
  needsShell false [] "echo hello | grep hello" = true /\
  needsShell false [] "echo $HOME" = true /\
  needsShell false [] "ls *.txt" = true /\
  needsShell true [] "echo hello" = true /\
  needsShell false ["A=1"] "echo hello" = true.
Proof. repeat split; reflexivity. Qed.

(** ** Output Multiplexer *)

Section MultiplexerFacts.

Variable cfg : Config.
Variables tag streamType color : string.

Lemma str_app_assoc (a b c : string) : (a +:+ b) +:+ c = a +:+ (b +:+ c).
Proof.
  induction a as [|x a IH]; [reflexivity|].
  change (String x ((a +:+ b) +:+ c) = String x (a +:+ (b +:+ c))).
  now rewrite IH.
Qed.

(** The write for one line is the tagged line and a line feed. *)
Lemma write_line_tagged (line : string) (stdout : list string) :
  write_line cfg tag streamType color line stdout =
    stdout ++ [tagged_line cfg tag streamType color line +:+ newline].
Proof.
  unfold write_line, tagged_line, Println, Print.
  destruct (noColor cfg || negb (colorSupported cfg));
    now rewrite !str_app_assoc.
Qed.

Lemma len_cons (c : ascii) (l : string) : len (String c l) = len l + 1.
Proof. unfold len. cbn [String.length]. lia. Qed.

Lemma len_nonneg (l : string) : 0 <= len l.
Proof. unfold len. lia. Qed.

(** [Scan] finds the first line of the input when the buffer can hold it,
    and fails with [ErrTooLong] when it cannot. *)
Lemma next_line_first (data : string) (held : Z) :
  0 <= held < MaxScanTokenSize -> data <> EmptyString ->
  exists l ls, lines_of data = l :: ls /\
    if held + len l <? MaxScanTokenSize
    then exists rest, next_line held data = Line l rest /\ lines_of rest = ls /\
                      (String.length rest < String.length data)%nat
    else next_line held data = TooLong.
Proof.
  revert held. induction data as [|c rest IH]; intros held Hh Hne; [congruence|].
  cbn [lines_of next_line]. destruct (Ascii.eqb c "010").
  - exists EmptyString, (lines_of rest). split; [reflexivity|].
    change (len EmptyString) with 0. rewrite Z.add_0_r.
    replace (held <? MaxScanTokenSize) with true by lia.
    exists rest. cbn [String.length]. repeat split; lia.
  - destruct (held + 1 >=? MaxScanTokenSize) eqn:Efull.
    + destruct (lines_of rest) as [|l ls]; eexists _, _; (split; [reflexivity|]);
        rewrite len_cons; pose proof (len_nonneg EmptyString);
        [|pose proof (len_nonneg l)];
        match goal with |- context [?a <? ?b] => replace (a <? b) with false by lia end;
        reflexivity.
    + destruct rest as [|c' rest'].
      * cbn [lines_of next_line]. replace (held + 1 =? 0) with false by lia.
        exists (String c EmptyString), []. split; [reflexivity|].
        rewrite len_cons. change (len EmptyString) with 0.
        replace (held + (0 + 1) <? MaxScanTokenSize) with true by lia.
        exists EmptyString. cbn [String.length]. repeat split; lia.
      * destruct (IH (held + 1)) as (l & ls & Hl & Hnext); [lia|discriminate|].
        rewrite Hl. exists (String c l), ls. split; [reflexivity|].
        rewrite len_cons. replace (held + (len l + 1)) with (held + 1 + len l) by lia.
        destruct (held + 1 + len l <? MaxScanTokenSize).
        -- destruct Hnext as (r & -> & Hr & Hlen). exists r.
           repeat split; [exact Hr|]. cbn [String.length] in *. lia.
        -- now rewrite Hnext.
Qed.

(** The loop writes the lines that come before the first over-long one and
    reports whether there was one. *)
Lemma scan_loop_lines (fuel : nat) (data : string) (stdout : list string) :
  (String.length data < fuel)%nat ->
  scan_loop fuel cfg data tag streamType color stdout =
    (stdout ++ map (fun l => tagged_line cfg tag streamType color (dropCR l) +:+ newline)
                   (deliverable (lines_of data)),
     negb (forallb fits (lines_of data))).
Proof.
  revert data stdout. induction fuel as [|fuel IH]; intros data stdout Hfuel; [lia|].
  cbn [scan_loop]. destruct data as [|c rest].
  - cbn. now rewrite app_nil_r.
  - destruct (next_line_first (String c rest) 0) as (l & ls & Hl & Hnext);
      [unfold MaxScanTokenSize; lia|discriminate|].
    rewrite Hl. cbn [deliverable forallb].
    rewrite Z.add_0_l in Hnext. fold (fits l) in Hnext. destruct (fits l).
    + destruct Hnext as (r & -> & <- & Hlen).
      rewrite IH by (cbn [String.length] in *; lia).
      rewrite write_line_tagged, <- app_assoc. reflexivity.
    + rewrite Hnext. cbn. now rewrite app_nil_r.
Qed.

Lemma scan_loop_S (fuel : nat) (data : string) (stdout : list string) :
  scan_loop (S fuel) cfg data tag streamType color stdout =
    match next_line 0 data with
    | Line token rest =>
        scan_loop fuel cfg rest tag streamType color
                  (write_line cfg tag streamType color (dropCR token) stdout)
    | Drained => (stdout, false)
    | TooLong => (stdout, true)
    end.
Proof. reflexivity. Qed.

Lemma deliverable_all (lines : list string) :
  forallb fits lines = true -> deliverable lines = lines.
Proof.
  induction lines as [|l lines IH]; [reflexivity|]. cbn.
  destruct (fits l); [|discriminate]. intros H. now rewrite IH.
Qed.

End MultiplexerFacts.

Section MultiplexerClaims.

Variable cfg : Config.
Variables tag streamType color : string.

Lemma printColoredMessage_line (message c : string) (stdout : list string) :
  printColoredMessage cfg message c stdout =
    stdout ++ [(if noColor cfg || negb (colorSupported cfg) then message
                else c +:+ message +:+ colorReset) +:+ newline].
Proof.
  unfold printColoredMessage, Println.
  now destruct (noColor cfg || negb (colorSupported cfg)).
Qed.

(** The whole of [processOutput]: the tagged lines, then the report of the
    scanner's error if it has one. *)
Lemma processOutput_writes (pipe : Reader) (stdout : list string) :
  processOutput cfg pipe tag streamType color stdout =
    stdout
    ++ map (fun line => tagged_line cfg tag streamType color line +:+ newline)
           (lines_read (content pipe))
    ++ match scanner_Err (negb (forallb fits (lines_of (content pipe)))) (ending pipe) with
       | Some err => [read_error_line cfg tag streamType err]
       | None => []
       end.
Proof.
  unfold processOutput, lines_read.
  rewrite scan_loop_lines by lia. rewrite map_map.
  destruct (scanner_Err _ _) as [err|].
  - rewrite printColoredMessage_line, <- app_assoc. reflexivity.
  - now rewrite app_nil_r.
Qed.

(** C4.  For every line read from the stream, [processOutput] writes one
    line of output: without color (the no-color flag set, or no color
    capability) the text [[tag:kind] ] followed by the line; with color the
    color code, [[tag] ], the reset code and the line unchanged, the stream
    kind left out.  Each is ended by a line feed; nothing else is written
    but at most one report of a read error after them. *)
Theorem processOutput_line_format (pipe : Reader) (stdout : list string) :
  exists report,
    processOutput cfg pipe tag streamType color stdout =
      stdout
      ++ map (fun line =>
                (if noColor cfg || negb (colorSupported cfg)
                 then "[" +:+ tag +:+ ":" +:+ streamType +:+ "] " +:+ line
                 else color +:+ "[" +:+ tag +:+ "] " +:+ colorReset +:+ line)
                +:+ newline)
             (lines_read (content pipe))
      ++ report
    /\ (length report <= 1)%nat.
Proof.
  rewrite processOutput_writes. eexists. split; [reflexivity|].
  destruct (scanner_Err _ _); cbn; lia.
Qed.

(** C7, amended.  [processOutput] emits, in order, one tagged output line
    for every newline-delimited line of the stream up to the first line of
    [MaxScanTokenSize] (65536) bytes or more.  When there is no such line,
    every line is emitted, and a report follows only if the reader ended on
    an error; when there is one, the loop ends there: neither that line nor
    any later one is emitted, and the scanner's error is reported. *)
Theorem processOutput_delivers_lines_that_fit (pipe : Reader) (stdout : list string) :
  processOutput cfg pipe tag streamType color stdout =
    if forallb fits (lines_of (content pipe)) then
      stdout
      ++ map (fun l => tagged_line cfg tag streamType color (dropCR l) +:+ newline)
             (lines_of (content pipe))
      ++ match ending pipe with
         | EOF => []
         | ReadError msg => [read_error_line cfg tag streamType msg]
         end
    else
      stdout
      ++ map (fun l => tagged_line cfg tag streamType color (dropCR l) +:+ newline)
             (deliverable (lines_of (content pipe)))
      ++ [read_error_line cfg tag streamType ErrTooLong].
Proof.
  rewrite processOutput_writes. unfold lines_read. rewrite map_map.
  destruct (forallb fits (lines_of (content pipe))) eqn:E; cbn [negb scanner_Err].
  - rewrite (deliverable_all _ E). now destruct (ending pipe).
  - reflexivity.
Qed.

End MultiplexerClaims.

Section LongLines.

Variable c : ascii.
Hypothesis c_not_LF : Ascii.eqb c "010" = false.

Lemma repeat_byte_app (n : nat) (rest : string) :
  repeat_byte c (S n) +:+ rest = String c (repeat_byte c n +:+ rest).
Proof. reflexivity. Qed.

Lemma len_repeat_byte (n : nat) : len (repeat_byte c n) = Z.of_nat n.
Proof.
  induction n as [|n IH]; [reflexivity|].
  cbn [repeat_byte]. rewrite len_cons, IH. lia.
Qed.

(** The lines of a run of [c] that a line feed ends. *)
Lemma lines_of_repeat_byte (n : nat) (rest : string) :
  lines_of (repeat_byte c n +:+ newline +:+ rest) = repeat_byte c n :: lines_of rest.
Proof.
  induction n as [|n IH]; [reflexivity|].
  rewrite repeat_byte_app. cbn [lines_of]. rewrite c_not_LF, IH. reflexivity.
Qed.

(** A run of [c] that fills the buffer makes [Scan] fail. *)
Lemma next_line_too_long (n : nat) (held : Z) (rest : string) :
  0 <= held < MaxScanTokenSize -> MaxScanTokenSize <= held + Z.of_nat n ->
  next_line held (repeat_byte c n +:+ rest) = TooLong.
Proof.
  revert held. induction n as [|n IH]; intros held Hh Hn; [lia|].
  rewrite repeat_byte_app. cbn [next_line]. rewrite c_not_LF.
  destruct (held + 1 >=? MaxScanTokenSize) eqn:E; [reflexivity|].
  rewrite IH by lia. reflexivity.
Qed.

End LongLines.

(** C7, as the code has it.  A line of 65536 bytes is not delivered, and
    the line after it is not either: the loop ends with the scanner's
    error. *)
Lemma long_line_stops_the_stream :
  let data := repeat_byte "a" (Z.to_nat MaxScanTokenSize) +:+ newline
              +:+ "after" +:+ newline in
  lines_of data = [repeat_byte "a" (Z.to_nat MaxScanTokenSize); "after"] /\
  processOutput (mkConfig true false [] false) (mkReader data EOF)
                "1" "out" colorGreen [] =
    ["[1] Error reading out: bufio.Scanner: token too long" +:+ newline].
Proof.
  cbv zeta. split.
  - rewrite lines_of_repeat_byte by reflexivity. f_equal.
  - unfold processOutput. cbn [content ending].
    rewrite scan_loop_S, next_line_too_long; [reflexivity|reflexivity|..];
      unfold MaxScanTokenSize; lia.
Qed.

(** One byte less and the line gets through. *)
Example longest_line_delivered :
  let data := repeat_byte "a" (Z.to_nat (MaxScanTokenSize - 1)) +:+ newline
              +:+ "after" +:+ newline in
  forallb fits (lines_of data) = true.
Proof.
  cbv zeta. rewrite lines_of_repeat_byte by reflexivity.
  cbn [forallb]. unfold fits at 1. rewrite len_repeat_byte.
  apply andb_true_intro. split; [|reflexivity].
  apply Z.ltb_lt. unfold MaxScanTokenSize. lia.
Qed.

Example processOutput_plain :
  processOutput (mkConfig true false [] false)
                (mkReader ("hello" +:+ newline +:+ "world") EOF)
                "greeting" "out" colorGreen [] =
    ["[greeting:out] hello" +:+ newline; "[greeting:out] world" +:+ newline].
Proof. reflexivity. Qed.

Example processOutput_colored :
  processOutput (mkConfig false true [] false)
                (mkReader ("oops" +:+ newline) EOF)
                "2" "err" colorRed [] =
    [esc +:+ "[31m[2] " +:+ esc +:+ "[0moops" +:+ newline].
Proof. reflexivity. Qed.

(** ** Process Supervisor *)

Section SupervisorFacts.

Variable host : Host.
Variable cfg : Config.

Lemma say_fields (message color : string) (st : State) :
  heap (say cfg message color st) = heap st /\
  nextCmd (say cfg message color st) = nextCmd st /\
  activeCommands (say cfg message color st) = activeCommands st /\
  parallelMode (say cfg message color st) = parallelMode st /\
  lastSigIntTime (say cfg message color st) = lastSigIntTime st /\
  currentSequentialCmd (say cfg message color st) = currentSequentialCmd st /\
  signalled (say cfg message color st) = signalled st.
Proof. repeat split. Qed.

(** The first statement either returns or builds a new command that has no
    process. *)
Lemma build_cases (run : Run) (cmdInfo : CommandInfo) (st : State) :
  (fst (exec_step host cfg run cmdInfo AtBuild st) = Returned_ /\
   heap (snd (exec_step host cfg run cmdInfo AtBuild st)) = heap st /\
   nextCmd (snd (exec_step host cfg run cmdInfo AtBuild st)) = nextCmd st /\
   activeCommands (snd (exec_step host cfg run cmdInfo AtBuild st)) = activeCommands st /\
   parallelMode (snd (exec_step host cfg run cmdInfo AtBuild st)) = parallelMode st /\
   currentSequentialCmd (snd (exec_step host cfg run cmdInfo AtBuild st)) =
     currentSequentialCmd st)
  \/
  (exists name args,
     fst (exec_step host cfg run cmdInfo AtBuild st) = AtRecord (nextCmd st) /\
     heap (snd (exec_step host cfg run cmdInfo AtBuild st)) =
       <[nextCmd st := mkCmd name args [] None false]> (heap st) /\
     nextCmd (snd (exec_step host cfg run cmdInfo AtBuild st)) = S (nextCmd st) /\
     activeCommands (snd (exec_step host cfg run cmdInfo AtBuild st)) = activeCommands st /\
     parallelMode (snd (exec_step host cfg run cmdInfo AtBuild st)) = parallelMode st /\
     currentSequentialCmd (snd (exec_step host cfg run cmdInfo AtBuild st)) =
       currentSequentialCmd st).
Proof.
  cbn [exec_step].
  destruct (needsShell (forceShell cfg) (envVars cfg) (Command cmdInfo)).
  - right. do 2 eexists. cbn. repeat split.
  - destruct (shlex_Split run) as [err|[|name args]].
    + left. cbn. repeat split.
    + left. cbn. repeat split.
    + right. do 2 eexists. cbn. repeat split.
Qed.

End SupervisorFacts.

(** ** Registry keys *)

Section KeyFacts.

Lemma digits_dash_free (d : Decimal.uint) : dash_free (NilEmpty.string_of_uint d).
Proof.
  unfold dash_free.
  induction d; cbn [NilEmpty.string_of_uint list_ascii_of_string];
    constructor; (discriminate || assumption).
Qed.

Lemma itoa_dash_free (n : Z) : 0 <= n -> dash_free (itoa n).
Proof.
  intros Hn. unfold itoa. destruct n as [|p|p]; [| |lia].
  - repeat constructor. discriminate.
  - cbn [Z.to_int NilZero.string_of_int]. unfold NilZero.string_of_uint.
    pose proof (digits_dash_free (Pos.to_uint p)) as H.
    destruct (Pos.to_uint p); try exact H. repeat constructor. discriminate.
Qed.

Lemma itoa_inj (n m : Z) : itoa n = itoa m -> n = m.
Proof.
  unfold itoa. intros H. apply DecimalZ.to_int_inj.
  assert (forall z, NilZero.int_of_string (NilZero.string_of_int (Z.to_int z))
                    = Some (Z.to_int z)) as Hisi.
  { intros z. apply NilZero.isi; destruct z; cbn; try discriminate;
      intros [= E]; now apply DecimalPos.Unsigned.to_uint_nonnil in E. }
  pose proof (Hisi n) as Hn. rewrite H, Hisi in Hn. congruence.
Qed.

Lemma str_app_cons (x : ascii) (a b : string) :
  String x a +:+ b = String x (a +:+ b).
Proof. reflexivity. Qed.

Lemma str_app_nil (b : string) : EmptyString +:+ b = b.
Proof. reflexivity. Qed.

Lemma dash_inside (a d : string) : ~ dash_free (a +:+ "-" +:+ d).
Proof.
  unfold dash_free. induction a as [|y a IH]; intros H.
  - rewrite str_app_nil, str_app_cons in H. cbn [list_ascii_of_string] in H.
    inversion H; congruence.
  - rewrite str_app_cons in H. cbn [list_ascii_of_string] in H.
    inversion H; auto.
Qed.

(** The text after the last dash of a key is the pid: two keys that are
    equal have the same pid. *)
Lemma dash_suffix_inj (a a' d d' : string) :
  dash_free d -> dash_free d' ->
  a +:+ "-" +:+ d = a' +:+ "-" +:+ d' -> d = d'.
Proof.
  intros Hd Hd'. revert a'. induction a as [|x a IH]; intros [|x' a'] H;
    rewrite ?str_app_nil, ?str_app_cons, ?str_app_nil in H.
  - now injection H.
  - injection H as Hx Hr. subst d. now apply dash_inside in Hd.
  - injection H as Hx Hr. subst d'. now apply dash_inside in Hd'.
  - injection H as Hx Hr. eauto.
Qed.

Lemma cmdID_of_inj (tag tag' : string) (pid pid' : Z) :
  0 <= pid -> 0 <= pid' ->
  cmdID_of tag pid = cmdID_of tag' pid' -> pid = pid'.
Proof.
  intros Hp Hp' H. apply itoa_inj.
  eapply dash_suffix_inj; eauto using itoa_dash_free.
Qed.

End KeyFacts.

(** ** The statements of [executeCommand] and the shared variables *)

Section StepFacts.

Variable host : Host.
Variable cfg : Config.

Lemma exec_step_effect (run : Run) (cmdInfo : CommandInfo) (pt : Point) (st : State) :
  effect (Tag cmdInfo) run pt st
         (fst (exec_step host cfg run cmdInfo pt st))
         (snd (exec_step host cfg run cmdInfo pt st)).
Proof.
  destruct pt; cbn [exec_step].
  - destruct (needsShell (forceShell cfg) (envVars cfg) (Command cmdInfo)).
    + eapply eff_alloc with (o := mkCmd _ _ [] None false); reflexivity.
    + destruct (shlex_Split run) as [err|[|name args]].
      * now apply eff_quiet.
      * now apply eff_quiet.
      * eapply eff_alloc with (o := mkCmd _ _ [] None false); reflexivity.
  - apply eff_quiet; cbn [fst snd quiet]; try reflexivity;
      now destruct (negb (parallelMode st)).
  - pose (f := fun c => mkCmd (Path c) (Args c)
                  (if Z.of_nat (length (envVars cfg)) >? 0
                   then environ host ++ envVars cfg else environ host)
                  (Process c) (waited c)).
    destruct (StdoutPipe run) as [e|]; [|destruct (StderrPipe run) as [e|]].
    + apply eff_env with (f := f); cbn [fst snd]; auto.
    + apply eff_env with (f := f); cbn [fst snd]; auto.
    + apply eff_env with (f := f); cbn [fst snd]; auto;
        destruct (Z.of_nat (length (envVars cfg)) >? 0); reflexivity.
  - destruct (Start run) as [e|pid] eqn:E.
    + now apply eff_quiet.
    + now apply eff_start.
  - now apply eff_store.
  - now apply eff_quiet.
  - now apply eff_wait.
  - now apply eff_delete.
  - apply eff_quiet; cbn [fst snd quiet]; try reflexivity;
      now destruct (negb (parallelMode st)).
  - apply eff_quiet; cbn [fst snd quiet]; try reflexivity; now destruct err.
  - now apply eff_quiet.
Qed.

(** Every statement brings the return nearer, and [executeCommand]
    returns within ten statements on every path. *)
Lemma exec_step_nearer (run : Run) (cmdInfo : CommandInfo) (pt : Point) (st : State) :
  (statements_left (fst (exec_step host cfg run cmdInfo pt st))
   <= pred (statements_left pt))%nat.
Proof.
  destruct pt; cbn [exec_step statements_left pred fst]; try lia.
  - destruct (needsShell _ _ _); [cbn; lia|].
    destruct (shlex_Split run) as [err|[|name args]]; cbn; lia.
  - destruct (StdoutPipe run); [cbn; lia|].
    destruct (StderrPipe run); cbn; lia.
  - destruct (Start run); cbn; lia.
Qed.

Lemma exec_steps_returns (n : nat) (run : Run) (cmdInfo : CommandInfo)
      (pt : Point) (st : State) :
  (statements_left pt <= n)%nat ->
  fst (exec_steps n host cfg run cmdInfo (pt, st)) = Returned_.
Proof.
  revert pt st. induction n as [|n IH]; intros pt st Hn.
  - destruct pt; cbn in Hn; try lia. reflexivity.
  - cbn [exec_steps fst snd].
    rewrite (surjective_pairing (exec_step host cfg run cmdInfo pt st)).
    apply IH. pose proof (exec_step_nearer run cmdInfo pt st). lia.
Qed.

Lemma executeCommand_returns (run : Run) (cmdInfo : CommandInfo) (st : State) :
  fst (exec_steps 10 host cfg run cmdInfo (AtBuild, st)) = Returned_.
Proof. apply exec_steps_returns. cbn. lia. Qed.

(** No statement changes the mode. *)
Lemma exec_step_parallelMode (run : Run) (cmdInfo : CommandInfo) (pt : Point) (st : State) :
  parallelMode (snd (exec_step host cfg run cmdInfo pt st)) = parallelMode st.
Proof.
  destruct pt; cbn [exec_step]; try reflexivity.
  - destruct (needsShell _ _ _); [reflexivity|].
    now destruct (shlex_Split run) as [err|[|name args]].
  - now destruct (negb (parallelMode st)).
  - destruct (StdoutPipe run); [reflexivity|]. destruct (StderrPipe run); [reflexivity|].
    now destruct (Z.of_nat (length (envVars cfg)) >? 0).
  - now destruct (Start run).
  - now destruct (negb (parallelMode st)).
  - now destruct err.
Qed.

End StepFacts.

(** ** The invariant of a run *)

Section InvariantFacts.

Variable host : Host.
Variable cfg : Config.
Variable commands : list (CommandInfo * Run).

Lemma thread_ok_heap (st st' : State) (t : Thread) :
  (forall c, owner (t_point t) = Some c -> heap st' !! c = heap st !! c) ->
  thread_ok st t -> thread_ok st' t.
Proof.
  unfold thread_ok. destruct (t_point t); cbn [owner]; intros H; try tauto;
    rewrite H by reflexivity; tauto.
Qed.

Lemma thread_ok_owner (st : State) (t : Thread) (c : nat) :
  thread_ok st t -> owner (t_point t) = Some c -> is_Some (heap st !! c).
Proof.
  unfold thread_ok. destruct (t_point t); cbn [owner]; try discriminate;
    intros H [= <-]; decompose [ex and] H; eauto.
Qed.

Lemma running_heap (st st' : State) (c : nat) :
  heap st' !! c = heap st !! c -> running st' c -> running st c.
Proof. unfold running. intros ->. tauto. Qed.

Lemma pool_insert_lookup (pool : list Thread) (i j : nat) (t t' tj : Thread) :
  pool !! i = Some t -> <[i := t']> pool !! j = Some tj ->
  (j = i /\ tj = t') \/ (j <> i /\ pool !! j = Some tj).
Proof.
  intros Hi Hj. destruct (decide (j = i)) as [->|Hne].
  - left. split; [reflexivity|].
    rewrite list_lookup_insert_eq in Hj by (eapply lookup_lt_Some; eauto).
    congruence.
  - right. split; [assumption|]. now rewrite list_lookup_insert_ne in Hj.
Qed.

Lemma pool_insert_same (pool : list Thread) (i : nat) (t t' : Thread) :
  pool !! i = Some t -> <[i := t']> pool !! i = Some t'.
Proof. intros Hi. apply list_lookup_insert_eq. eapply lookup_lt_Some; eauto. Qed.

Lemma pool_insert_other (pool : list Thread) (i j : nat) (t' tj : Thread) :
  j <> i -> pool !! j = Some tj -> <[i := t']> pool !! j = Some tj.
Proof. intros Hne Hj. now rewrite list_lookup_insert_ne. Qed.

Lemma pool_insert_commands (pool : list Thread) (i : nat) (t : Thread) (pt' : Point) :
  pool !! i = Some t ->
  map (fun t => (t_info t, t_run t)) (<[i := mkThread (t_info t) (t_run t) pt']> pool)
  = map (fun t => (t_info t, t_run t)) pool.
Proof.
  intros Hi. change (map ?f ?l) with (f <$> l).
  rewrite list_fmap_insert. cbn [t_info t_run].
  apply list_insert_id. now rewrite list_lookup_fmap, Hi.
Qed.

Lemma Inv_commands_lookup (pool : list Thread) (st : State) (i : nat) (t : Thread) :
  Inv commands pool st -> pool !! i = Some t ->
  commands !! i = Some (t_info t, t_run t).
Proof.
  intros HI Hi. rewrite <- (inv_pool _ _ _ HI).
  change (map ?f ?l) with (f <$> l). now rewrite list_lookup_fmap, Hi.
Qed.

(** Two executions whose children have started did not store the same
    key. *)
Lemma keys_differ (pool : list Thread) (st : State) (i j : nat) (ti tj : Thread)
      (pi pj : Z) :
  distinct_pids commands -> Inv commands pool st ->
  pool !! i = Some ti -> pool !! j = Some tj ->
  Start (t_run ti) = Started pi -> Start (t_run tj) = Started pj ->
  cmdID_of (Tag (t_info ti)) pi = cmdID_of (Tag (t_info tj)) pj -> i = j.
Proof.
  intros [Hpos Hdiff] HI Hi Hj Hsi Hsj Hk.
  pose proof (Inv_commands_lookup _ _ _ _ HI Hi) as Hci.
  pose proof (Inv_commands_lookup _ _ _ _ HI Hj) as Hcj.
  assert (started_pid (t_info ti, t_run ti) = Some pi) as Hpi
    by (unfold started_pid; cbn [snd]; now rewrite Hsi).
  assert (started_pid (t_info tj, t_run tj) = Some pj) as Hpj
    by (unfold started_pid; cbn [snd]; now rewrite Hsj).
  assert (pi = pj) as ->.
  { eapply cmdID_of_inj; eauto. }
  eapply Hdiff; eauto.
Qed.

End InvariantFacts.

(** ** One statement of one execution keeps the invariant *)

Section PoolUpdate.

Variable commands : list (CommandInfo * Run).
Variable pool : list Thread.
Variable st : State.
Variable i : nat.
Variable t : Thread.
Hypothesis HI : Inv commands pool st.
Hypothesis Hi : pool !! i = Some t.

Local Abbreviation another := (another_thread pool i).

Lemma split_pool (P : Thread -> Prop) :
  (exists j tj, pool !! j = Some tj /\ P tj) <-> P t \/ another P.
Proof.
  split.
  - intros (j & tj & Hj & HP). destruct (decide (j = i)) as [->|Hne].
    + left. congruence.
    + right. exists j, tj. auto.
  - intros [HP|(j & tj & _ & Hj & HP)]; eauto.
Qed.

Lemma split_updated (pt' : Point) (P : Thread -> Prop) :
  (exists j tj, <[i := mkThread (t_info t) (t_run t) pt']> pool !! j = Some tj /\ P tj)
  <-> P (mkThread (t_info t) (t_run t) pt') \/ another P.
Proof.
  split.
  - intros (j & tj & Hj & HP).
    destruct (pool_insert_lookup _ _ _ _ _ _ Hi Hj) as [[-> ->]|[Hne Hj']].
    + now left.
    + right. exists j, tj. auto.
  - intros [HP|(j & tj & Hne & Hj & HP)].
    + exists i, (mkThread (t_info t) (t_run t) pt'). split; [|exact HP].
      eapply pool_insert_same; eauto.
    + exists j, tj. split; [|exact HP]. now apply pool_insert_other.
Qed.

Lemma others_owner (c : nat) :
  owner (t_point t) = Some c -> ~ another (fun tj => owner (t_point tj) = Some c).
Proof.
  intros Hc (j & tj & Hne & Hj & Hcj). apply Hne.
  eapply (inv_owner _ _ _ HI); eauto.
Qed.

Lemma others_below (c : nat) :
  another (fun tj => owner (t_point tj) = Some c) -> (c < nextCmd st)%nat.
Proof.
  intros (j & tj & _ & Hj & Hc). apply (inv_heap _ _ _ HI).
  eapply thread_ok_owner; eauto. eapply (inv_threads _ _ _ HI); eauto.
Qed.

(** The invariant after the [i]-th execution moved to [pt'] and the shared
    variables to [st']. *)
Lemma Inv_update (pt' : Point) (st' : State) :
  thread_ok st' (mkThread (t_info t) (t_run t) pt') ->
  (forall j tj, j <> i -> pool !! j = Some tj -> thread_ok st' tj) ->
  (forall c, owner pt' = Some c ->
             ~ another (fun tj => owner (t_point tj) = Some c)) ->
  (forall c, is_Some (heap st' !! c) -> (c < nextCmd st')%nat) ->
  (forall c, running st' c ->
             child_of pt' = Some c \/ another (fun tj => child_of (t_point tj) = Some c)) ->
  (forall k c, activeCommands st' !! k = Some c <->
               entry_of pt' = Some (k, c) \/
               another (fun tj => entry_of (t_point tj) = Some (k, c))) ->
  Inv commands (<[i := mkThread (t_info t) (t_run t) pt']> pool) st'.
Proof.
  intros Hb Hc Hd He Hf Hg. constructor.
  - rewrite pool_insert_commands by exact Hi. apply (inv_pool _ _ _ HI).
  - intros j tj Hj.
    destruct (pool_insert_lookup _ _ _ _ _ _ Hi Hj) as [[-> ->]|[Hne Hj']]; eauto.
  - intros j1 j2 t1 t2 c H1 H2 Ho1 Ho2.
    destruct (pool_insert_lookup _ _ _ _ _ _ Hi H1) as [[-> ->]|[Hne1 H1']];
      destruct (pool_insert_lookup _ _ _ _ _ _ Hi H2) as [[-> ->]|[Hne2 H2']].
    + reflexivity.
    + exfalso. apply (Hd c Ho1). exists j2, t2. auto.
    + exfalso. apply (Hd c Ho2). exists j1, t1. auto.
    + eapply (inv_owner _ _ _ HI); eauto.
  - exact He.
  - intros c Hrun. apply (split_updated pt' (fun tj => child_of (t_point tj) = Some c)).
    cbn [t_point]. auto.
  - intros k c. rewrite (Hg k c).
    symmetry. apply (split_updated pt' (fun tj => entry_of (t_point tj) = Some (k, c))).
Qed.


Lemma old_registry (k : string) (c : nat) :
  activeCommands st !! k = Some c <->
  entry_of (t_point t) = Some (k, c) \/
  another (fun tj => entry_of (t_point tj) = Some (k, c)).
Proof.
  rewrite (inv_registry _ _ _ HI).
  apply (split_pool (fun tj => entry_of (t_point tj) = Some (k, c))).
Qed.

Lemma old_running (c : nat) :
  running st c ->
  child_of (t_point t) = Some c \/ another (fun tj => child_of (t_point tj) = Some c).
Proof.
  intros H. apply (split_pool (fun tj => child_of (t_point tj) = Some c)).
  now apply (inv_running _ _ _ HI).
Qed.

Lemma others_ok (st' : State) (c : nat) :
  owner (t_point t) = Some c ->
  (forall x, x <> c -> heap st' !! x = heap st !! x) ->
  forall j tj, j <> i -> pool !! j = Some tj -> thread_ok st' tj.
Proof.
  intros Hc Hframe j tj Hne Hj. apply (thread_ok_heap st).
  - intros x Hx. apply Hframe. intros ->.
    apply (others_owner c Hc). exists j, tj. auto.
  - eapply (inv_threads _ _ _ HI); eauto.
Qed.

Hypothesis pids : distinct_pids commands.

(** The key of the [i]-th execution is not the key of another one. *)
Lemma others_key (pid : Z) (c : nat) :
  Start (t_run t) = Started pid ->
  ~ another (fun tj => entry_of (t_point tj) = Some (cmdID_of (Tag (t_info t)) pid, c)).
Proof.
  intros Hs (j & tj & Hne & Hj & He). apply Hne. symmetry.
  pose proof (inv_threads _ _ _ HI _ _ Hj) as Hokj. unfold thread_ok in Hokj.
  destruct (t_point tj); cbn [entry_of] in He; try discriminate;
    injection He as Hk Hc; destruct Hokj as (pj & Hsj & Hkj & _);
    eapply (keys_differ commands pool st i j t tj pid pj); eauto; congruence.
Qed.


Lemma alter_is_Some (f : Cmd -> Cmd) (c x : nat) (h : gmap nat Cmd) :
  is_Some (alter f c h !! x) <-> is_Some (h !! x).
Proof.
  destruct (decide (c = x)) as [->|Hne].
  - now rewrite lookup_alter_eq, fmap_is_Some.
  - now rewrite lookup_alter_ne.
Qed.

Lemma quiet_facts (pt pt' : Point) :
  quiet pt pt' ->
  (forall c, owner pt' = Some c -> owner pt = Some c) /\
  (forall c, child_of pt = Some c -> child_of pt' = Some c) /\
  entry_of pt' = entry_of pt.
Proof.
  destruct pt, pt'; cbn; try contradiction; intros H;
    repeat split; try discriminate; try (destruct H; congruence); congruence.
Qed.

Lemma effect_preserves (pt' : Point) (st' : State) :
  effect (Tag (t_info t)) (t_run t) (t_point t) st pt' st' ->
  Inv commands (<[i := mkThread (t_info t) (t_run t) pt']> pool) st'.
Proof.
  intros He.
  pose proof (inv_threads _ _ _ HI _ _ Hi) as Hok.
  inversion He as [pt0 pt0' st0 st0' Hq Hh Hn Hr Hpt
                  |st0 st0' o Hp Hw Hh Hn Hr Hpt
                  |c pt0' st0 st0' f Hpt' Hf Hh Hn Hr Hpt
                  |c pid st0 st0' Hs Hh Hn Hr Hpt
                  |c pid st0 st0' Hh Hn Hr Hpt
                  |c k st0 st0' Hh Hn Hr Hpt
                  |c k w st0 st0' Hh Hn Hr Hpt]; subst.
  - (* a statement that leaves the heap and the registry alone *)
    destruct (quiet_facts _ _ Hq) as (Hown & Hchild & Hentry).
    apply Inv_update.
    + unfold thread_ok in *. cbn [t_point t_run t_info]. rewrite Hh.
      destruct (t_point t), pt'; cbn in Hq; try contradiction; try exact I;
        try (destruct Hq; subst); subst; exact Hok.
    + intros j tj Hne Hj. apply (thread_ok_heap st); [now rewrite Hh|].
      eapply (inv_threads _ _ _ HI); eauto.
    + intros c Hc. apply others_owner. auto.
    + rewrite Hh, Hn. apply (inv_heap _ _ _ HI).
    + intros c Hrun. apply (running_heap st) in Hrun; [|now rewrite Hh].
      destruct (old_running c Hrun); auto.
    + intros k c. rewrite Hr, Hentry. apply old_registry.
  - (* exec.Command *)
    rewrite <- Hpt in *. apply Inv_update.
    + unfold thread_ok. cbn [t_point]. exists o.
      rewrite Hh, lookup_insert_eq. auto.
    + intros j tj Hne Hj. pose proof (inv_threads _ _ _ HI _ _ Hj) as Hokj.
      apply (thread_ok_heap st); [|exact Hokj].
      intros x Hx. rewrite Hh. apply lookup_insert_ne.
      pose proof (inv_heap _ _ _ HI x (thread_ok_owner _ _ _ Hokj Hx)). lia.
    + intros c [= <-] Hc. apply others_below in Hc. lia.
    + intros c. rewrite Hh, Hn. destruct (decide (c = nextCmd st)) as [->|Hne]; [lia|].
      rewrite lookup_insert_ne by congruence. intros H.
      pose proof (inv_heap _ _ _ HI c H). lia.
    + intros c (o' & pid & Ho' & Hpid & Hwo). right.
      rewrite Hh in Ho'. destruct (decide (c = nextCmd st)) as [->|Hne].
      * rewrite lookup_insert_eq in Ho'. congruence.
      * rewrite lookup_insert_ne in Ho' by congruence.
        assert (running st c) as Hrun by (exists o', pid; auto).
        destruct (old_running c Hrun) as [H|H]; [|exact H].
        rewrite <- Hpt in H. discriminate.
    + intros k c. rewrite Hr, old_registry. now rewrite <- Hpt.
  - (* cmd.Env and the pipes *)
    rewrite <- Hpt in *. cbn [thread_ok t_point] in Hok.
    unfold thread_ok in Hok. rewrite <- Hpt in Hok.
    destruct Hok as (o & Ho & Hpo & Hwo).
    assert (forall x, x <> c -> heap st' !! x = heap st !! x) as Hframe
      by (intros x Hx; rewrite Hh; now apply lookup_alter_ne).
    apply Inv_update.
    + unfold thread_ok. cbn [t_point].
      destruct Hpt' as [->| ->]; [exact I|]. exists (f o).
      rewrite Hh, lookup_alter_eq, Ho. destruct (Hf o) as [-> ->]. auto.
    + apply (others_ok st' c); [now rewrite <- Hpt|exact Hframe].
    + intros x Hx. apply others_owner. rewrite <- Hpt.
      destruct Hpt' as [->| ->]; [discriminate|exact Hx].
    + intros x. rewrite Hh, Hn, alter_is_Some.
      apply (inv_heap _ _ _ HI).
    + intros x (o' & pid & Ho' & Hpid & Hwo'). right.
      destruct (decide (x = c)) as [->|Hne].
      * rewrite Hh, lookup_alter_eq, Ho in Ho'. injection Ho' as <-.
        destruct (Hf o) as [Hfp _]. congruence.
      * rewrite Hframe in Ho' by exact Hne.
        assert (running st x) as Hrun by (exists o', pid; auto).
        destruct (old_running x Hrun) as [H|H]; [|exact H].
        rewrite <- Hpt in H. discriminate.
    + intros k x. rewrite Hr, old_registry, <- Hpt.
      destruct Hpt' as [->| ->]; reflexivity.
  - (* cmd.Start *)
    unfold thread_ok in Hok. rewrite <- Hpt in Hok.
    destruct Hok as (o & Ho & Hpo & Hwo).
    assert (forall x, x <> c -> heap st' !! x = heap st !! x) as Hframe
      by (intros x Hx; rewrite Hh; now apply lookup_alter_ne).
    apply Inv_update.
    + unfold thread_ok. cbn [t_point t_run]. split; [exact Hs|].
      eexists. rewrite Hh, lookup_alter_eq, Ho. cbn. auto.
    + apply (others_ok st' c); [now rewrite <- Hpt|exact Hframe].
    + intros x [= <-]. apply others_owner. now rewrite <- Hpt.
    + intros x. rewrite Hh, Hn, alter_is_Some.
      apply (inv_heap _ _ _ HI).
    + intros x (o' & pid' & Ho' & Hpid & Hwo').
      destruct (decide (x = c)) as [->|Hne]; [now left|right].
      rewrite Hframe in Ho' by exact Hne.
      assert (running st x) as Hrun by (exists o', pid'; auto).
      destruct (old_running x Hrun) as [H|H]; [|exact H].
      rewrite <- Hpt in H. discriminate.
    + intros k x. rewrite Hr, old_registry, <- Hpt. reflexivity.
  - (* activeCommands.Store *)
    unfold thread_ok in Hok. rewrite <- Hpt in Hok.
    destruct Hok as (Hs & o & Ho & Hpo & Hwo).
    apply Inv_update.
    + unfold thread_ok. cbn [t_point t_run t_info]. exists pid.
      repeat split; auto. exists o. rewrite Hh. auto.
    + intros j tj Hne Hj. apply (thread_ok_heap st); [now rewrite Hh|].
      eapply (inv_threads _ _ _ HI); eauto.
    + intros x [= <-]. apply others_owner. now rewrite <- Hpt.
    + rewrite Hh, Hn. apply (inv_heap _ _ _ HI).
    + intros x Hrun. apply (running_heap st) in Hrun; [|now rewrite Hh].
      destruct (old_running x Hrun) as [H|H]; [left|now right].
      now rewrite <- Hpt in H.
    + intros k x. rewrite Hr. cbn [entry_of].
      destruct (decide (k = cmdID_of (Tag (t_info t)) pid)) as [->|Hne].
      * rewrite lookup_insert_eq. split.
        -- intros [= <-]. now left.
        -- intros [[= <-]|H]; [reflexivity|]. now apply others_key in H.
      * rewrite lookup_insert_ne by congruence. rewrite old_registry, <- Hpt.
        cbn [entry_of]. split; (intros [H|H]; [congruence|now right]).
  - (* cmd.Wait *)
    unfold thread_ok in Hok. rewrite <- Hpt in Hok.
    destruct Hok as (pid & Hs & Hk & o & Ho & Hpo & Hwo).
    assert (forall x, x <> c -> heap st' !! x = heap st !! x) as Hframe
      by (intros x Hx; rewrite Hh; now apply lookup_alter_ne).
    apply Inv_update.
    + unfold thread_ok. cbn [t_point t_run t_info]. exists pid.
      repeat split; auto. eexists. rewrite Hh, lookup_alter_eq, Ho. cbn. auto.
    + apply (others_ok st' c); [now rewrite <- Hpt|exact Hframe].
    + intros x [= <-]. apply others_owner. now rewrite <- Hpt.
    + intros x. rewrite Hh, Hn, alter_is_Some.
      apply (inv_heap _ _ _ HI).
    + intros x (o' & pid' & Ho' & Hpid & Hwo'). right.
      destruct (decide (x = c)) as [->|Hne].
      * rewrite Hh, lookup_alter_eq, Ho in Ho'. injection Ho' as <-. discriminate.
      * rewrite Hframe in Ho' by exact Hne.
        assert (running st x) as Hrun by (exists o', pid'; auto).
        destruct (old_running x Hrun) as [H|H]; [|exact H].
        rewrite <- Hpt in H. cbn in H. congruence.
    + intros k' x. rewrite Hr, old_registry, <- Hpt. reflexivity.
  - (* activeCommands.Delete *)
    unfold thread_ok in Hok. rewrite <- Hpt in Hok.
    destruct Hok as (pid & Hs & Hk & o & Ho & Hwo).
    apply Inv_update.
    + exact I.
    + intros j tj Hne Hj. apply (thread_ok_heap st); [now rewrite Hh|].
      eapply (inv_threads _ _ _ HI); eauto.
    + intros x [=].
    + rewrite Hh, Hn. apply (inv_heap _ _ _ HI).
    + intros x Hrun. apply (running_heap st) in Hrun; [|now rewrite Hh].
      destruct (old_running x Hrun) as [H|H]; [|now right].
      rewrite <- Hpt in H. discriminate.
    + intros k' x. rewrite Hr. cbn [entry_of].
      destruct (decide (k' = k)) as [->|Hne].
      * rewrite lookup_delete_eq. split; [discriminate|].
        intros [H|H]; [discriminate|]. subst k. now apply others_key in H.
      * rewrite lookup_delete_ne by congruence. rewrite old_registry, <- Hpt.
        cbn [entry_of]. split; (intros [H|H]; [congruence|now right]).
Qed.

End PoolUpdate.

(** ** Signal Coordinator *)

Section SignalFacts.

Variable host : Host.
Variable cfg : Config.

Lemma with_signalled_id (st : State) : with_signalled (signalled st) st = st.
Proof. now destruct st. Qed.

Lemma signal_process_target (cmd : nat) (d : Delivery) (st : State) :
  signal_process cmd d st = with_signalled (signalled st ++ target st cmd d) st.
Proof.
  unfold signal_process, target.
  destruct (heap st !! cmd) as [c|]; [destruct (Process c) as [pid|]; [destruct (waited c)|]|];
    rewrite ?app_nil_r, ?with_signalled_id; reflexivity.
Qed.

Lemma broadcast_loop (d : Delivery) (entries : list (string * nat)) (st : State) :
  fold_left (fun st entry => signal_process (snd entry) d st) entries st =
    with_signalled (signalled st ++ flat_map (fun entry => target st (snd entry) d) entries) st.
Proof.
  revert st. induction entries as [|e entries IH]; intros st; cbn [fold_left flat_map].
  - now rewrite app_nil_r, with_signalled_id.
  - rewrite IH, signal_process_target. unfold with_signalled at 1 2 3. cbn.
    unfold with_signalled. cbn. rewrite <- app_assoc. reflexivity.
Qed.

(** The broadcast reaches the child of every entry of the registry, and
    nobody else. *)
Lemma broadcast_signalled (sig : Signal) (st : State) (pid : Z) (d : Delivery) :
  In (pid, d) (signalled (broadcast host sig st)) <->
  In (pid, d) (signalled st) \/
  (d = broadcast_delivery host sig /\
   exists cmdID cmd c, activeCommands st !! cmdID = Some cmd /\
                       heap st !! cmd = Some c /\
                       Process c = Some pid /\ waited c = false).
Proof.
  unfold broadcast. rewrite broadcast_loop. cbn [signalled with_signalled].
  rewrite in_app_iff, in_flat_map. apply or_iff_compat_l. split.
  - intros ([k cmd] & Hin & Htar). apply list_elem_of_In, elem_of_map_to_list in Hin.
    cbn [snd] in Htar. unfold target in Htar.
    destruct (heap st !! cmd) as [c|] eqn:Hc; [|contradiction].
    destruct (Process c) as [p|] eqn:Hp; [|contradiction].
    destruct (waited c) eqn:Hw; [contradiction|].
    destruct Htar as [[= <- <-]|[]]. split; [reflexivity|].
    exists k, cmd, c. auto.
  - intros (-> & k & cmd & c & Hk & Hc & Hp & Hw). exists (k, cmd). split.
    + now apply list_elem_of_In, elem_of_map_to_list.
    + cbn [snd]. unfold target. rewrite Hc, Hp, Hw. now left.
Qed.

Lemma broadcast_shared (sig : Signal) (st : State) :
  same_shared st (broadcast host sig st) /\
  stdout (broadcast host sig st) = stdout st /\
  lastSigIntTime (broadcast host sig st) = lastSigIntTime st.
Proof. unfold broadcast. rewrite broadcast_loop. now repeat split. Qed.

(** The listener never touches the heap, the registry, the mode or the
    record of the current command. *)
Lemma handle_signal_shared (sig : Signal) (now : Z) (st st' : State) :
  handle_signal host cfg sig now st = Listening st' -> same_shared st st'.
Proof.
  unfold handle_signal.
  destruct (is_SIGINT sig && negb (parallelMode st)).
  - destruct (negb (IsZero (lastSigIntTime st)) && _); [discriminate|].
    intros [= <-]. cbn [currentSequentialCmd say with_stdout with_lastSigIntTime].
    destruct (currentSequentialCmd st) as [cmd|]; [|now repeat split].
    rewrite signal_process_target. now repeat split.
  - destruct (broadcast_shared sig
                (say cfg ("Received signal: " +:+ Signal_String sig
                          +:+ ". Forwarding to all child processes...") colorYellow st))
      as ((Hh & Hn & Hr & Hm & Hc) & _).
    destruct (_ && parallelMode _); [discriminate|].
    destruct (_ && negb (parallelMode _)); [discriminate|].
    intros [= <-]. now repeat split.
Qed.

(** [Time.Sub] saturates far away from one second. *)
Lemma Sub_lt_Second (now last : Z) : (Sub now last <? Second) = (now - last <? Second).
Proof.
  unfold Sub, minDuration, maxDuration, Second.
  destruct (now - last <? 1000000000) eqn:E; lia.
Qed.

End SignalFacts.

(** ** The run goes on *)

Section Progress.

Variable host : Host.
Variable cfg : Config.

Lemma returned_or_not (pt : Point) : pt = Returned_ \/ pt <> Returned_.
Proof. destruct pt; (now left) || (right; discriminate). Qed.

(** Among executions that have not all returned, there is a first one. *)
Lemma first_live (pool : list Thread) :
  (exists i t, pool !! i = Some t /\ t_point t <> Returned_) ->
  exists i t, pool !! i = Some t /\ t_point t <> Returned_ /\
              Forall (fun t => t_point t = Returned_) (take i pool).
Proof.
  induction pool as [|t pool IH]; intros (i & t0 & Hi & Hlive).
  - destruct i; discriminate.
  - destruct (returned_or_not (t_point t)) as [Hret|Hnot].
    + destruct i as [|i]; [cbn in Hi; congruence|].
      destruct IH as (j & tj & Hj & Hlj & Hall); [eauto|].
      exists (S j), tj. cbn. auto.
    + exists 0%nat, t. cbn. auto.
Qed.

(** While an execution has not returned, a statement of the run can be
    executed, in either mode. *)
Lemma thread_step_enabled (pool : list Thread) (st : State) :
  (exists i t, pool !! i = Some t /\ t_point t <> Returned_) ->
  exists y, thread_step host cfg (pool, st) y.
Proof.
  intros H. destruct (first_live pool H) as (i & t & Hi & Hlive & Hall).
  eexists. apply (thread_step_at host cfg pool st i t Hi Hlive). now right.
Qed.

End Progress.

(** C2.  In sequential mode, on SIGINT: when an earlier SIGINT was recorded
    less than one second before, the listener prints the notice and ends
    the program with status 130 = 128 + 2; otherwise (none recorded, or one
    second or more ago) it records the time, prints the press-again notice,
    sends the signal to the child of the current sequential command alone
    (to nobody when none is recorded) and goes on listening, the executions
    and the variables they share being left as they were: the run goes on
    with the statements of the executions that have not returned. *)
Theorem sequential_interrupt (host : Host) (cfg : Config) (now : Z) (st : State) :
  parallelMode st = false ->
  (lastSigIntTime st <> 0 /\ now - lastSigIntTime st < Second ->
     handle_signal host cfg SIGINT now st =
       Exit 130 (say cfg double_interrupt_notice colorYellow st)
     /\ 130 = 128 + signum SIGINT) /\
  (lastSigIntTime st = 0 \/ Second <= now - lastSigIntTime st ->
     exists st',
       handle_signal host cfg SIGINT now st = Listening st' /\
       lastSigIntTime st' = now /\
       stdout st' = printColoredMessage cfg press_again_notice colorYellow (stdout st) /\
       signalled st' =
         signalled st ++ match currentSequentialCmd st with
                         | Some cmd => target st cmd (Sig SIGINT)
                         | None => []
                         end /\
       same_shared st st' /\
       forall pool,
         signal_step host cfg (pool, st) (pool, st') /\
         ((exists i t, pool !! i = Some t /\ t_point t <> Returned_) ->
          exists y, thread_step host cfg (pool, st') y)).
Proof.
  intros Hmode. unfold handle_signal. rewrite Hmode, Sub_lt_Second.
  cbn [is_SIGINT negb andb]. unfold IsZero. split.
  - intros [Hrec Hlt]. split; [|reflexivity].
    replace (lastSigIntTime st =? 0) with false by lia.
    replace (now - lastSigIntTime st <? Second) with true by lia. reflexivity.
  - intros Hfresh.
    assert (negb (lastSigIntTime st =? 0) && (now - lastSigIntTime st <? Second) = false)
      as Hcond.
    { destruct Hfresh as [->|Hold]; [reflexivity|].
      replace (now - lastSigIntTime st <? Second) with false by lia.
      apply andb_false_r. }
    assert (exists st',
      Listening
        match currentSequentialCmd
                (say cfg press_again_notice colorYellow (with_lastSigIntTime now st)) with
        | Some cmd => signal_process cmd (Sig SIGINT)
                        (say cfg press_again_notice colorYellow (with_lastSigIntTime now st))
        | None => say cfg press_again_notice colorYellow (with_lastSigIntTime now st)
        end = Listening st' /\
      lastSigIntTime st' = now /\
      stdout st' = printColoredMessage cfg press_again_notice colorYellow (stdout st) /\
      signalled st' =
        signalled st ++ match currentSequentialCmd st with
                        | Some cmd => target st cmd (Sig SIGINT)
                        | None => []
                        end /\
      same_shared st st') as (st' & Heq & Hrest).
    { cbn [currentSequentialCmd say with_stdout with_lastSigIntTime].
      destruct (currentSequentialCmd st) as [cmd|] eqn:Hcur.
      - rewrite signal_process_target. eexists. split; [reflexivity|].
        unfold same_shared. cbn. rewrite Hcur. now repeat split.
      - eexists. split; [reflexivity|].
        unfold same_shared. cbn. rewrite Hcur, app_nil_r. now repeat split. }
    exists st'. rewrite Hcond. split; [exact Heq|].
    destruct Hrest as (Ht & Ho & Hs & Hsh).
    split; [exact Ht|]. split; [exact Ho|]. split; [exact Hs|]. split; [exact Hsh|].
    intros pool. split; [|apply thread_step_enabled].
    apply signal_step_at with (sig := SIGINT) (now := now).
    unfold handle_signal. rewrite Hmode, Sub_lt_Second.
    cbn [is_SIGINT negb andb]. unfold IsZero. rewrite Hcond. exact Heq.
Qed.

(** C2 while [sleep 10] runs as pid 4242: a first interrupt reaches that
    child alone, a second one 0.999999999 s later ends the program. *)
Lemma sequential_interrupt_witness :
  (exists st',
     handle_signal host0 cfg0 SIGINT 5000000000 (snd (sleep_after 6)) = Listening st' /\
     lastSigIntTime st' = 5000000000 /\
     signalled st' = [(4242, Sig SIGINT)]) /\
  handle_signal host0 cfg0 SIGINT 5999999999
                (with_lastSigIntTime 5000000000 (snd (sleep_after 6))) =
    Exit 130 (say cfg0 double_interrupt_notice colorYellow
                  (with_lastSigIntTime 5000000000 (snd (sleep_after 6)))).
Proof.
  split.
  - destruct (sequential_interrupt host0 cfg0 5000000000 (snd (sleep_after 6)) eq_refl)
      as [_ H].
    destruct H as (st' & H1 & H2 & _ & H4 & _); [left; reflexivity|].
    exists st'. repeat split; assumption.
  - destruct (sequential_interrupt host0 cfg0 5999999999
                (with_lastSigIntTime 5000000000 (snd (sleep_after 6))) eq_refl)
      as [H _].
    apply H. split; [discriminate|reflexivity].
Defined.

(** C10.  SIGHUP never ends the program, in either mode: the listener
    sends it to the child of every entry of the registry (kills the child
    on Windows) and goes on listening; a signal on which the listener ends
    the program is SIGINT or SIGTERM. *)
Theorem hangup_keeps_listening (host : Host) (cfg : Config) (now : Z) (st : State) :
  (exists st',
     handle_signal host cfg SIGHUP now st = Listening st' /\
     same_shared st st' /\
     forall pid d,
       In (pid, d) (signalled st') <->
       In (pid, d) (signalled st) \/
       (d = (if windows host then Kill else Sig SIGHUP) /\
        exists cmdID cmd c,
          activeCommands st !! cmdID = Some cmd /\ heap st !! cmd = Some c /\
          Process c = Some pid /\ waited c = false)) /\
  (forall sig code st',
     handle_signal host cfg sig now st = Exit code st' ->
     sig = SIGINT \/ sig = SIGTERM).
Proof.
  split.
  - unfold handle_signal. cbn [is_SIGINT is_SIGTERM andb orb].
    eexists. split; [reflexivity|]. split.
    + eapply handle_signal_shared with (sig := SIGHUP) (now := now).
      unfold handle_signal. cbn [is_SIGINT is_SIGTERM andb orb]. reflexivity.
    + intros pid d. rewrite broadcast_signalled. reflexivity.
  - intros [| |] code st' H; [|now left|now right].
    unfold handle_signal in H. cbn [is_SIGINT is_SIGTERM andb orb] in H.
    discriminate.
Qed.

(** C10 while [sleep 10] runs as pid 4242. *)
Lemma hangup_keeps_listening_witness :
  (exists st',
     handle_signal host0 cfg0 SIGHUP 7 (snd (sleep_after 6)) = Listening st' /\
     In (4242, Sig SIGHUP) (signalled st')) /\
  (forall sig code st',
     handle_signal host0 cfg0 sig 7 (snd (sleep_after 6)) = Exit code st' ->
     sig = SIGINT \/ sig = SIGTERM).
Proof.
  destruct (hangup_keeps_listening host0 cfg0 7 (snd (sleep_after 6)))
    as [(st' & H1 & _ & H3) H].
  split; [|exact H]. exists st'. split; [exact H1|].
  apply H3. right. split; [reflexivity|].
  exists "1-4242", 0%nat, (mkCmd "sleep" ["sleep"; "10"] ["PATH=/bin"] (Some 4242) false).
  repeat split; reflexivity.
Defined.

(** ** The current sequential command *)

Section CurrentCommand.

Variable host : Host.
Variable cfg : Config.

(** From [cmd.Start] on, when the child starts: the seven statements that
    follow end with the record of the current command cleared, whatever the
    wait returns. *)
Lemma started_run_clears (run : Run) (cmdInfo : CommandInfo) (cmd : nat) (pid : Z)
      (st : State) :
  parallelMode st = false -> Start run = Started pid ->
  fst (exec_steps 7 host cfg run cmdInfo (AtStart cmd, st)) = Returned_ /\
  currentSequentialCmd (snd (exec_steps 7 host cfg run cmdInfo (AtStart cmd, st))) = None.
Proof.
  intros Hmode Hstart. cbn [exec_steps exec_step fst snd]. rewrite Hstart.
  cbn [fst snd exec_step parallelMode with_heap with_activeCommands with_stdout].
  rewrite Hmode. cbn [negb fst snd]. split; [reflexivity|].
  now destruct (Wait run).
Qed.

(** The second statement records the command just built, which has no
    process yet. *)
Lemma built_then_recorded (run : Run) (cmdInfo : CommandInfo) (cmd : nat) (st : State) :
  parallelMode st = false ->
  fst (exec_step host cfg run cmdInfo AtBuild st) = AtRecord cmd ->
  fst (exec_steps 2 host cfg run cmdInfo (AtBuild, st)) = AtSetup cmd /\
  parallelMode (snd (exec_steps 2 host cfg run cmdInfo (AtBuild, st))) = false /\
  currentSequentialCmd (snd (exec_steps 2 host cfg run cmdInfo (AtBuild, st))) = Some cmd /\
  exists c, heap (snd (exec_steps 2 host cfg run cmdInfo (AtBuild, st))) !! cmd = Some c /\
            Process c = None.
Proof.
  intros Hmode Hbuild.
  pose proof (exec_step_parallelMode host cfg run cmdInfo AtBuild st) as Hm1.
  pose proof (build_cases host cfg run cmdInfo st) as Hcases.
  cbn [exec_steps fst snd].
  remember (exec_step host cfg run cmdInfo AtBuild st) as ps1 eqn:E. clear E.
  rewrite Hbuild. cbn [exec_step fst snd]. rewrite Hm1, Hmode. cbn [negb].
  repeat split.
  - cbn. now rewrite Hm1.
  - destruct Hcases as [(Hret & _)|(name & args & Hrec & Hheap & _)]; [congruence|].
    rewrite Hbuild in Hrec. injection Hrec as ->.
    eexists. cbn [heap with_currentSequentialCmd]. rewrite Hheap, lookup_insert_eq.
    split; reflexivity.
Qed.

End CurrentCommand.

Lemma exec_steps_add (host : Host) (cfg : Config) (run : Run) (cmdInfo : CommandInfo)
      (n m : nat) (ps : Point * State) :
  exec_steps (n + m) host cfg run cmdInfo ps =
    exec_steps m host cfg run cmdInfo (exec_steps n host cfg run cmdInfo ps).
Proof.
  revert ps. induction n as [|n IH]; intros ps; [reflexivity|].
  cbn [Nat.add exec_steps]. apply IH.
Qed.

(** C5, as the code has it.  When the spawn fails, [executeCommand] returns
    with the command still recorded as the current one, and that command
    never had a process: the record is made before [cmd.Start] and the
    early returns do not clear it. *)
Lemma failed_start_leaves_record :
  parallelMode initial = false /\
  Start missing_run = StartError "exec: nosuchprogram: executable file not found in $PATH" /\
  currentSequentialCmd (executeCommand host0 cfg0 missing_run missing_info initial)
    = Some 0%nat /\
  heap (executeCommand host0 cfg0 missing_run missing_info initial) !! 0%nat
    = Some (mkCmd "nosuchprogram" ["nosuchprogram"] ["PATH=/bin"] None false).
Proof. repeat split; reflexivity. Qed.

(** C5, amended.  In sequential mode a command that has been built is
    recorded as the current sequential command before its pipes are made
    and before the spawn is attempted, when it has no process yet; and when
    the spawn succeeds the record is cleared after [cmd.Wait] has returned,
    whether the command succeeded, exited with a status or the wait itself
    failed, so that the reference is unset when such an execution
    returns. *)
Theorem sequential_record_cleared_after_wait
        (host : Host) (cfg : Config) (run : Run) (cmdInfo : CommandInfo)
        (st : State) (cmd : nat) :
  parallelMode st = false ->
  fst (exec_step host cfg run cmdInfo AtBuild st) = AtRecord cmd ->
  (fst (exec_steps 2 host cfg run cmdInfo (AtBuild, st)) = AtSetup cmd /\
   currentSequentialCmd (snd (exec_steps 2 host cfg run cmdInfo (AtBuild, st))) = Some cmd /\
   exists c, heap (snd (exec_steps 2 host cfg run cmdInfo (AtBuild, st))) !! cmd = Some c /\
             Process c = None) /\
  (StdoutPipe run = None -> StderrPipe run = None ->
   forall pid, Start run = Started pid ->
   currentSequentialCmd (executeCommand host cfg run cmdInfo st) = None).
Proof.
  intros Hmode Hbuild.
  destruct (built_then_recorded host cfg run cmdInfo cmd st Hmode Hbuild)
    as (Hpt & Hm2 & Hcur & Hheap).
  split; [auto|].
  intros Hout Herr pid Hstart. unfold executeCommand.
  change 10%nat with (2 + (1 + 7))%nat. rewrite !exec_steps_add.
  destruct (exec_steps 2 host cfg run cmdInfo (AtBuild, st)) as [pt2 s2].
  cbn [fst snd] in Hpt, Hm2. subst pt2.
  assert (exec_steps 1 host cfg run cmdInfo (AtSetup cmd, s2)
          = (AtStart cmd, snd (exec_steps 1 host cfg run cmdInfo (AtSetup cmd, s2)))) as E1.
  { cbn [exec_steps exec_step fst snd]. rewrite Hout, Herr. reflexivity. }
  rewrite E1. apply (started_run_clears host cfg run cmdInfo cmd pid); [|exact Hstart].
  change (exec_steps 1 host cfg run cmdInfo (AtSetup cmd, s2))
    with (exec_step host cfg run cmdInfo (AtSetup cmd) s2).
  now rewrite exec_step_parallelMode.
Qed.

(** The amended C5 for [sleep 10]. *)
Lemma sequential_record_cleared_after_wait_witness :
  (fst (sleep_after 2) = AtSetup 0%nat /\
   currentSequentialCmd (snd (sleep_after 2)) = Some 0%nat /\
   exists c, heap (snd (sleep_after 2)) !! 0%nat = Some c /\ Process c = None) /\
  currentSequentialCmd (executeCommand host0 cfg0 sleep_run sleep_info initial) = None.
Proof.
  destruct (sequential_record_cleared_after_wait host0 cfg0 sleep_run sleep_info
              initial 0%nat eq_refl eq_refl) as [H1 H2].
  split; [exact H1|]. exact (H2 eq_refl eq_refl 4242 eq_refl).
Defined.

(** ** The invariant holds throughout a run *)

Section Reachable.

Variable host : Host.
Variable cfg : Config.
Variable commands : list (CommandInfo * Run).
Hypothesis pids : distinct_pids commands.

Lemma Inv_launch (parallel : bool) :
  Inv commands (fst (launch parallel commands)) (snd (launch parallel commands)).
Proof.
  unfold launch. cbn [fst snd].
  assert (forall i t,
    map (fun c => mkThread (fst c) (snd c) AtBuild) commands !! i = Some t ->
    t_point t = AtBuild) as Hpt.
  { intros i t. change (map ?f ?l) with (f <$> l). rewrite list_lookup_fmap.
    destruct (commands !! i); [|discriminate]. now intros [= <-]. }
  constructor.
  - rewrite map_map. cbn [t_info t_run]. clear Hpt pids.
    induction commands as [|[info run] cs IH]; [reflexivity|]. cbn. now rewrite IH.
  - intros i t Hi. unfold thread_ok. now rewrite (Hpt i t Hi).
  - intros i j ti tj c Hi _ Ho. rewrite (Hpt i ti Hi) in Ho. discriminate.
  - intros c [o Ho]. cbn in Ho. now rewrite lookup_empty in Ho.
  - intros c (o & pid & Ho & _). cbn in Ho. now rewrite lookup_empty in Ho.
  - intros k c. cbn [activeCommands with_parallelMode initial]. rewrite lookup_empty.
    split; [discriminate|]. intros (i & t & Hi & He).
    rewrite (Hpt i t Hi) in He. discriminate.
Qed.

Lemma Inv_shared (pool : list Thread) (st st' : State) :
  same_shared st st' -> Inv commands pool st -> Inv commands pool st'.
Proof.
  intros (Hh & Hn & Hr & _) HI. constructor.
  - apply (inv_pool _ _ _ HI).
  - intros i t Hi. apply (thread_ok_heap st); [now rewrite Hh|].
    eapply (inv_threads _ _ _ HI); eauto.
  - apply (inv_owner _ _ _ HI).
  - rewrite Hh, Hn. apply (inv_heap _ _ _ HI).
  - intros c Hrun. apply (inv_running _ _ _ HI).
    apply (running_heap st st' c); [now rewrite Hh|exact Hrun].
  - intros k c. rewrite Hr. apply (inv_registry _ _ _ HI).
Qed.

Lemma Inv_sys_step (x y : list Thread * State) :
  sys_step host cfg x y -> Inv commands (fst x) (snd x) -> Inv commands (fst y) (snd y).
Proof.
  intros [Hstep|Hstep] HI.
  - destruct Hstep as [pool st i t Hi Hpt Hrun]. cbn [fst snd] in *.
    apply effect_preserves with (st := st); try assumption. apply exec_step_effect.
  - destruct Hstep as [pool st st' sig now Hsig]. cbn [fst snd] in *.
    eapply Inv_shared; [|exact HI]. eapply handle_signal_shared; eauto.
Qed.

(** The invariant holds in every configuration of a run. *)
Lemma Inv_reachable (parallel : bool) (x : list Thread * State) :
  reachable host cfg parallel commands x -> Inv commands (fst x) (snd x).
Proof.
  unfold reachable. intros Hreach. pattern x.
  eapply rtc_ind_r; [| |exact Hreach].
  - apply Inv_launch.
  - intros y z _ Hstep IH. eapply Inv_sys_step; eauto.
Qed.

End Reachable.

(** ** The registry and the running children *)

Section RegistryFacts.

Variable host : Host.
Variable cfg : Config.

(** The first execution of the pool taking [n] statements, none of them
    from a point where it has returned. *)
Lemma head_steps (n : nat) (info : CommandInfo) (run : Run) (pt : Point) (st : State)
      (rest : list Thread) :
  (forall k, (k < n)%nat -> fst (exec_steps k host cfg run info (pt, st)) <> Returned_) ->
  rtc (sys_step host cfg)
      (mkThread info run pt :: rest, st)
      (mkThread info run (fst (exec_steps n host cfg run info (pt, st))) :: rest,
       snd (exec_steps n host cfg run info (pt, st))).
Proof.
  revert pt st. induction n as [|n IH]; intros pt st Hlive.
  - apply rtc_refl.
  - eapply rtc_l.
    + left. apply (thread_step_at host cfg (mkThread info run pt :: rest) st 0
                                  (mkThread info run pt)).
      * reflexivity.
      * apply (Hlive 0%nat). lia.
      * right. constructor.
    + cbn [t_info t_run t_point exec_steps fst snd]. 
      change (<[0%nat := ?x]> (?y :: ?l)) with (x :: l).
      specialize (IH (fst (exec_step host cfg run info pt st))
                     (snd (exec_step host cfg run info pt st))).
      rewrite <- surjective_pairing in IH. apply IH.
      intros k Hk. apply (Hlive (S k)). lia.
Qed.

End RegistryFacts.

(** C8, as the code has it.  After [cmd.Start] has returned and before
    [activeCommands.Store] has run, the child is started and not waited for
    and the registry has no entry for it. *)
Lemma started_child_not_yet_registered :
  reachable host0 cfg0 false commands0
            ([mkThread sleep_info sleep_run (AtStore 0 4242);
              mkThread missing_info missing_run AtBuild],
             snd (sleep_after 4)) /\
  running (snd (sleep_after 4)) 0 /\
  ~ registered (snd (sleep_after 4)) 0.
Proof.
  split; [|split].
  - apply (head_steps host0 cfg0 4 sleep_info sleep_run AtBuild initial
                      [mkThread missing_info missing_run AtBuild]).
    intros k Hk. do 4 (destruct k as [|k]; [discriminate|]). lia.
  - exists (mkCmd "sleep" ["sleep"; "10"] ["PATH=/bin"] (Some 4242) false), 4242.
    repeat split; reflexivity.
  - intros [k Hk]. change (activeCommands (snd (sleep_after 4))) with (∅ : gmap string nat) in Hk.
    now rewrite lookup_empty in Hk.
Qed.

(** C8, amended.  Throughout a run in which the pids of the children are
    distinct, a command has an entry in the registry if and only if its
    child has been started and [cmd.Wait] has not returned for it, except
    at two places of its own execution: between the return of [cmd.Start]
    and the [Store] that is the next statement (child running, no entry
    yet; the [Store] puts it under the key tag-pid), and between the return
    of [cmd.Wait] and the [Delete] that is the next statement (entry still
    there, child waited for; the [Delete] removes it). *)
Theorem registry_tracks_running_child
        (host : Host) (cfg : Config) (parallel : bool)
        (commands : list (CommandInfo * Run))
        (pool : list Thread) (st : State) (cmd : nat) :
  distinct_pids commands ->
  reachable host cfg parallel commands (pool, st) ->
  ((forall i t, pool !! i = Some t ->
                ~ between_start_and_store (t_point t) cmd /\
                ~ between_wait_and_delete (t_point t) cmd) ->
   (registered st cmd <-> running st cmd)) /\
  (forall i t pid,
      pool !! i = Some t -> t_point t = AtStore cmd pid ->
      running st cmd /\ ~ registered st cmd /\
      activeCommands (snd (exec_step host cfg (t_run t) (t_info t) (t_point t) st))
        !! cmdID_of (Tag (t_info t)) pid = Some cmd) /\
  (forall i t cmdID err,
      pool !! i = Some t -> t_point t = AtDelete cmd cmdID err ->
      registered st cmd /\ ~ running st cmd /\
      ~ registered (snd (exec_step host cfg (t_run t) (t_info t) (t_point t) st)) cmd).
Proof.
  intros Hpids Hreach.
  pose proof (Inv_reachable host cfg commands Hpids parallel _ Hreach) as HI.
  cbn [fst snd] in HI.
  assert (forall k i t, activeCommands st !! k = Some cmd ->
                        pool !! i = Some t -> owner (t_point t) = Some cmd ->
                        entry_of (t_point t) = Some (k, cmd)) as Hentry.
  { intros k i t Hk Hi Ho.
    apply (inv_registry _ _ _ HI) in Hk as (j & tj & Hj & Hej).
    assert (owner (t_point tj) = Some cmd) as Hoj
      by (destruct (t_point tj); cbn in Hej |- *; congruence).
    assert (j = i) as -> by (eapply (inv_owner _ _ _ HI); eauto).
    congruence. }
  split; [|split].
  - intros Hout. split.
    + intros [k Hk]. apply (inv_registry _ _ _ HI) in Hk as (i & t & Hi & He).
      pose proof (inv_threads _ _ _ HI _ _ Hi) as Hok. unfold thread_ok in Hok.
      destruct (Hout i t Hi) as [_ Hnd].
      destruct (t_point t) eqn:Ept; cbn [entry_of] in He; try discriminate;
        injection He as -> ->.
      * destruct Hok as (pid & _ & _ & o & Ho & Hp & Hw). exists o, pid. auto.
      * destruct Hok as (pid & _ & _ & o & Ho & Hp & Hw). exists o, pid. auto.
      * exfalso. apply Hnd. unfold between_wait_and_delete. eauto.
    + intros Hrun. apply (inv_running _ _ _ HI) in Hrun as (i & t & Hi & Hc).
      destruct (Hout i t Hi) as [Hns _].
      destruct (t_point t) eqn:Ept; cbn [child_of] in Hc; try discriminate;
        injection Hc as ->.
      * exfalso. apply Hns. unfold between_start_and_store. eauto.
      * exists cmdID. apply (inv_registry _ _ _ HI). exists i, t.
        rewrite Ept. auto.
      * exists cmdID. apply (inv_registry _ _ _ HI). exists i, t.
        rewrite Ept. auto.
  - intros i t pid Hi Ept.
    pose proof (inv_threads _ _ _ HI _ _ Hi) as Hok. unfold thread_ok in Hok.
    rewrite Ept in Hok. destruct Hok as (_ & o & Ho & Hp & Hw).
    split; [exists o, pid; auto|]. split.
    + intros [k Hk]. specialize (Hentry k i t Hk Hi). rewrite Ept in Hentry.
      cbn in Hentry. discriminate (Hentry eq_refl).
    + rewrite Ept. cbn [exec_step snd activeCommands with_activeCommands].
      apply lookup_insert_eq.
  - intros i t cmdID err Hi Ept.
    pose proof (inv_threads _ _ _ HI _ _ Hi) as Hok. unfold thread_ok in Hok.
    rewrite Ept in Hok. destruct Hok as (pid & _ & _ & o & Ho & Hw).
    split; [|split].
    + exists cmdID. apply (inv_registry _ _ _ HI). exists i, t. now rewrite Ept.
    + intros (o' & pid' & Ho' & _ & Hw'). congruence.
    + rewrite Ept. cbn [exec_step snd]. intros [k Hk].
      cbn [activeCommands with_activeCommands] in Hk.
      destruct (decide (k = cmdID)) as [->|Hne].
      * now rewrite lookup_delete_eq in Hk.
      * rewrite lookup_delete_ne in Hk by congruence.
        specialize (Hentry k i t Hk Hi). rewrite Ept in Hentry.
        cbn in Hentry. specialize (Hentry eq_refl). congruence.
Qed.

(** One child only is started in the example run. *)
Lemma commands0_distinct_pids : distinct_pids commands0.
Proof.
  split.
  - intros [|[|i]] c pid Hc Hp; cbn in Hc; try discriminate;
      injection Hc as <-; cbn in Hp; try discriminate.
    injection Hp as <-. lia.
  - intros [|[|i]] [|[|j]] ci cj pid Hi Hj Hpi Hpj; cbn in Hi, Hj;
      try discriminate; try reflexivity;
      injection Hi as <-; injection Hj as <-; cbn in Hpi, Hpj; discriminate.
Defined.

(** The amended C8 while the output of [sleep 10] is being read. *)
Lemma registry_tracks_running_child_witness :
  registered (snd (sleep_after 5)) 0 <-> running (snd (sleep_after 5)) 0.
Proof.
  refine (proj1 (registry_tracks_running_child host0 cfg0 false commands0
            [mkThread sleep_info sleep_run (fst (sleep_after 5));
             mkThread missing_info missing_run AtBuild]
            (snd (sleep_after 5)) 0 commands0_distinct_pids _) _).
  - apply (head_steps host0 cfg0 5 sleep_info sleep_run AtBuild initial
                      [mkThread missing_info missing_run AtBuild]).
    intros k Hk. do 5 (destruct k as [|k]; [discriminate|]). lia.
  - intros [|[|i]] t Hi; cbn in Hi; try discriminate; injection Hi as <-;
      (split; [intros [pid H]|intros (k & e & H)]); discriminate.
Defined.

(** ** The sequential scheduler *)

Section SequentialRun.

Variable host : Host.
Variable cfg : Config.

Lemma exec_steps_Returned (n : nat) (run : Run) (info : CommandInfo) (st : State) :
  exec_steps n host cfg run info (Returned_, st) = (Returned_, st).
Proof. induction n as [|n IH]; [reflexivity|exact IH]. Qed.

(** An execution takes some number of statements and has then returned;
    [executeCommand] is the state it leaves. *)
Lemma live_statements (run : Run) (info : CommandInfo) (pt : Point) (st : State) :
  exists k,
    (forall j, (j < k)%nat -> fst (exec_steps j host cfg run info (pt, st)) <> Returned_) /\
    fst (exec_steps k host cfg run info (pt, st)) = Returned_ /\
    forall n, (statements_left pt <= n)%nat ->
              snd (exec_steps n host cfg run info (pt, st))
              = snd (exec_steps k host cfg run info (pt, st)).
Proof.
  remember (statements_left pt) as m eqn:Hm. revert pt st Hm.
  induction m as [m IH] using lt_wf_ind. intros pt st Hm.
  destruct (returned_or_not pt) as [->|Hlive].
  - exists 0%nat. split; [lia|]. split; [reflexivity|].
    intros n _. now rewrite exec_steps_Returned.
  - pose proof (exec_step_nearer host cfg run info pt st) as Hnear.
    assert (0 < statements_left pt)%nat as Hpos by (destruct pt; cbn; try lia; congruence).
    destruct (IH (statements_left (fst (exec_step host cfg run info pt st)))
                 ltac:(lia) _ (snd (exec_step host cfg run info pt st)) eq_refl)
      as (k & Hk1 & Hk2 & Hk3).
    rewrite <- surjective_pairing in Hk1, Hk2, Hk3.
    exists (S k). split; [|split].
    + intros [|j] Hj; [exact Hlive|]. cbn [exec_steps fst snd]. apply Hk1. lia.
    + exact Hk2.
    + intros [|n] Hn; [lia|]. cbn [exec_steps fst snd]. apply Hk3. lia.
Qed.

(** The [i]-th execution taking [k] statements when those before it have
    returned. *)
Lemma thread_steps (k : nat) (pool : list Thread) (i : nat) (info : CommandInfo)
      (run : Run) (pt : Point) (st : State) :
  pool !! i = Some (mkThread info run pt) ->
  Forall (fun t => t_point t = Returned_) (take i pool) ->
  (forall j, (j < k)%nat -> fst (exec_steps j host cfg run info (pt, st)) <> Returned_) ->
  rtc (sys_step host cfg) (pool, st)
      (<[i := mkThread info run (fst (exec_steps k host cfg run info (pt, st)))]> pool,
       snd (exec_steps k host cfg run info (pt, st))).
Proof.
  revert pool pt st. induction k as [|k IH]; intros pool pt st Hi Hdone Hlive.
  - cbn [exec_steps fst snd]. rewrite list_insert_id by exact Hi. apply rtc_refl.
  - eapply rtc_l.
    + left. apply (thread_step_at host cfg pool st i _ Hi).
      * apply (Hlive 0%nat). lia.
      * now right.
    + cbn [t_info t_run t_point exec_steps fst snd].
      specialize (IH (<[i := mkThread info run (fst (exec_step host cfg run info pt st))]> pool)
                     (fst (exec_step host cfg run info pt st))
                     (snd (exec_step host cfg run info pt st))).
      rewrite <- surjective_pairing, list_insert_insert_eq in IH. apply IH.
      * apply list_lookup_insert_eq. eapply lookup_lt_Some; eauto.
      * rewrite take_insert_ge by lia. exact Hdone.
      * intros j Hj. apply (Hlive (S j)). lia.
Qed.

Lemma fold_left_step {A B : Type} (f : A -> B -> A) (x : B) (l : list B) (a : A) :
  fold_left f (x :: l) a = fold_left f l (f a x).
Proof. reflexivity. Qed.

Lemma runSequential_cons (info : CommandInfo) (run : Run)
      (commands : list (CommandInfo * Run)) (st : State) :
  runSequential host cfg ((info, run) :: commands) st =
    runSequential host cfg commands (executeCommand host cfg run info st).
Proof. unfold runSequential. rewrite fold_left_step. reflexivity. Qed.

(** [runSequential] is the run of the pool in which the executions return
    one after the other. *)
Lemma runSequential_steps (commands : list (CommandInfo * Run)) (done : list Thread)
      (st : State) :
  Forall (fun t => t_point t = Returned_) done ->
  rtc (sys_step host cfg)
      (done ++ map (fun c => mkThread (fst c) (snd c) AtBuild) commands, st)
      (done ++ map returned commands, runSequential host cfg commands st).
Proof.
  revert done st. induction commands as [|[info run] commands IH]; intros done st Hdone.
  - apply rtc_refl.
  - rewrite runSequential_cons. cbn [map fst snd].
    destruct (live_statements run info AtBuild st) as (k & Hlive & Hret & Hsame).
    assert (snd (exec_steps k host cfg run info (AtBuild, st))
            = executeCommand host cfg run info st) as Hk.
    { unfold executeCommand. symmetry. apply Hsame. cbn. lia. }
    etrans.
    + apply (thread_steps k _ (length done) info run AtBuild st).
      * rewrite lookup_app_r by lia. now rewrite Nat.sub_diag.
      * now rewrite take_app_length.
      * exact Hlive.
    + rewrite Hret, Hk. rewrite insert_app_r_alt by lia. rewrite Nat.sub_diag.
      cbn [insert list_insert].
      specialize (IH (done ++ [returned (info, run)])
                     (executeCommand host cfg run info st)).
      rewrite <- (app_assoc done [returned (info, run)] (map returned commands)) in IH.
      rewrite <- (app_assoc done [returned (info, run)]) in IH.
      unfold returned at 1 3 in IH. cbn [app fst snd] in IH.
      apply IH. apply Forall_app. split; [exact Hdone|].
      constructor; [reflexivity|constructor].
Qed.

(** The sequential scheduler, run to its end, is a run of the pool. *)
Lemma runSequential_reachable (commands : list (CommandInfo * Run)) :
  reachable host cfg false commands
            (map returned commands,
             runSequential host cfg commands (snd (launch false commands))).
Proof.
  unfold reachable, launch. cbn [snd].
  apply (runSequential_steps commands [] (with_parallelMode false initial)).
  constructor.
Qed.

End SequentialRun.

(** ** More on the Command Resolver *)

Section ResolverMore.

Lemma resolve_from_nil (cmds : list string) (pool : list TaggedCommand) (n : nat) :
  resolve_from n cmds pool = [] <-> cmds = [] /\ pool = [].
Proof.
  destruct cmds as [|c cmds]; cbn [resolve_from].
  - destruct pool; cbn [leftover_items].
    + split; auto.
    + split; [discriminate|intros [_ [=]]].
  - destruct (adopt c pool) as [[t p]|]; split; try discriminate; intros [[=] _].
Qed.

Lemma positional_inline_nil (args : list string) :
  positional args = [] /\ inline_decls args = [] <-> args = [].
Proof.
  split; [|intros ->; split; reflexivity].
  destruct args as [|a args]; [reflexivity|]. intros [Hp Hd]. exfalso.
  unfold positional in Hp. unfold inline_decls in Hd.
  rewrite filter_cons in Hp. cbn [omap list_omap] in Hd.
  destruct (is_inline a) eqn:E.
  - destruct (inline_parses a E) as [d Hpd]. rewrite Hpd in Hd. discriminate.
  - rewrite decide_True in Hp by reflexivity. discriminate.
Qed.

Lemma flag_decls_nil (tags : list string) :
  flag_decls tags = [] <-> Forall (fun t => Contains t ":" = false) tags.
Proof.
  unfold flag_decls. induction tags as [|t tags IH]; cbn [omap list_omap].
  - split; auto.
  - pose proof (parse_decl_Some_iff t) as Hp.
    destruct (parse_decl t) as [d|].
    + split; [discriminate|]. intros H. inversion H as [|? ? Hc _]; subst.
      assert (Contains t ":" = true) by (apply Hp; eauto). congruence.
    + rewrite IH. split.
      * intros H. constructor; [|exact H].
        destruct (Contains t ":") eqn:E; [|reflexivity].
        destruct (proj2 Hp eq_refl) as [? [=]].
      * intros H. now inversion H.
Qed.

Lemma work_list_nil (tags args : list string) :
  work_list tags args = [] <->
  args = [] /\ Forall (fun t => Contains t ":" = false) tags.
Proof.
  unfold work_list, pending_pool. rewrite resolve_from_nil. split.
  - intros [Hp Hpool]. destruct (inline_decls args) eqn:Hi; [|discriminate].
    cbn [app] in Hpool. split.
    + apply positional_inline_nil. auto.
    + now apply flag_decls_nil.
  - intros [-> Hf]. apply flag_decls_nil in Hf. rewrite Hf. auto.
Qed.

Lemma fold_tag_step_printed (tags : list string) (st : Partition) :
  printed (fold_left tag_step tags st) =
    printed st ++ map warn_flag (filter (fun t => Contains t ":" = false) tags).
Proof.
  revert st. induction tags as [|t tags IH]; intros st.
  - cbn. now rewrite app_nil_r.
  - cbn [fold_left]. rewrite IH, tag_step_cases, filter_cons.
    pose proof (parse_decl_Some_iff t) as Hp.
    destruct (parse_decl t) as [d|]; cbn [printed].
    + assert (Contains t ":" = true) as -> by (apply Hp; eauto).
      rewrite decide_False by discriminate. reflexivity.
    + assert (Contains t ":" = false) as Hc.
      { destruct (Contains t ":") eqn:E; [|reflexivity].
        destruct (proj2 Hp eq_refl) as [? [=]]. }
      rewrite decide_True by exact Hc. cbn [map]. now rewrite <- app_assoc.
Qed.

(** What [processCommands] prints, in terms of [work_list]. *)
Lemma processCommands_prints (tags args : list string) :
  fst (processCommands tags args) =
    map warn_flag (filter (fun t => Contains t ":" = false) tags)
    ++ match work_list tags args with
       | [] => [no_commands]
       | _ => []
       end.
Proof.
  pose proof (processCommands_returns tags args) as Hret.
  unfold processCommands in *.
  destruct (fold_arg_step args (mkPartition [] [] [])) as (_ & _ & Hp1).
  pose proof (fold_tag_step_printed tags (fold_left arg_step args (mkPartition [] [] [])))
    as Hp2.
  rewrite Hp1 in Hp2. cbn [printed app] in Hp2.
  set (st2 := fold_left tag_step tags _) in *.
  destruct (regular_loop 0 (regularArgs st2) (taggedCommands st2) []) as [cs pool].
  destruct (remaining_loop _ pool cs) as [|item items];
    cbn [fst snd] in *; destruct (work_list tags args); try discriminate;
    rewrite Hp2, ?app_nil_r; reflexivity.
Qed.

End ResolverMore.

(** X1.  The work items are numbered by their place in the list returned:
    indices start at 0 and go up by one, without gap or repetition. *)
Theorem processCommands_indices
        (tags args : list string) (items : list CommandInfo) (k : nat)
        (item : CommandInfo) :
  snd (processCommands tags args) = Returned items ->
  items !! k = Some item -> Index item = Z.of_nat k.
Proof.
  rewrite processCommands_returns. unfold work_list.
  intros Hret Hk.
  assert (resolve_from 0 (positional args) (pending_pool tags args) = items) as Hitems
    by (destruct (resolve_from 0 _ _); [discriminate|congruence]).
  rewrite <- Hitems in Hk. now apply resolve_from_index in Hk.
Qed.

Lemma processCommands_indices_witness :
  Index (mkCommandInfo "echo world" "farewell" 1) = Z.of_nat 1.
Proof.
  apply (processCommands_indices ["farewell:echo world"] ["echo hello"]
           [mkCommandInfo "echo hello" "1" 0; mkCommandInfo "echo world" "farewell" 1]);
    reflexivity.
Defined.

(** X2.  [processCommands] ends the program, with status 1, exactly when
    there is no argument at all and no flag declaration contains a colon;
    in every other case it returns a list that is not empty. *)
Theorem processCommands_exits_iff (tags args : list string) :
  (snd (processCommands tags args) = Exited 1 <->
   args = [] /\ Forall (fun t => Contains t ":" = false) tags) /\
  (forall code, snd (processCommands tags args) = Exited code -> code = 1) /\
  snd (processCommands tags args) <> Returned [].
Proof.
  rewrite processCommands_returns. rewrite <- work_list_nil.
  destruct (work_list tags args) as [|item items].
  - repeat split; auto; try discriminate. congruence.
  - repeat split; try discriminate.
Qed.

(** X3.  [processCommands] prints one warning for every flag declaration
    without a colon, in the order of the flags, and nothing for any
    argument; the only other thing it prints is the usage error, last,
    when it ends the program. *)
Theorem processCommands_warnings (tags args : list string) :
  fst (processCommands tags args) =
    map warn_flag (filter (fun t => Contains t ":" = false) tags)
    ++ match snd (processCommands tags args) with
       | Exited _ => [no_commands]
       | Returned _ => []
       end.
Proof.
  rewrite processCommands_prints, processCommands_returns.
  now destruct (work_list tags args).
Qed.

Section ResolverShape.

Lemma resolve_from_unmatched (cmds : list string) (pool : list TaggedCommand) (n : nat) :
  Forall (fun c => Forall (fun d => tcCommand d <> c) pool) cmds ->
  resolve_from n cmds pool =
    default_items n cmds ++ leftover_items (n + length cmds) pool.
Proof.
  intros H. revert n. induction H as [|c cmds Hc _ IH]; intros n.
  - cbn. now rewrite Nat.add_0_r.
  - cbn [resolve_from default_items length app].
    rewrite (proj2 (adopt_None c pool) Hc), IH.
    now replace (S n + length cmds)%nat with (n + S (length cmds))%nat by lia.
Qed.

Lemma leftover_items_decl (pool : list TaggedCommand) (n : nat) (d : TaggedCommand) :
  In d pool ->
  exists item, In item (leftover_items n pool) /\
               Command item = tcCommand d /\ Tag item = tcTag d.
Proof.
  revert n. induction pool as [|x pool IH]; intros n Hd; [contradiction|].
  cbn [leftover_items]. destruct Hd as [->|Hd].
  - eexists. split; [now left|]. split; reflexivity.
  - destruct (IH (S n) Hd) as (item & Hin & Hc). exists item. split; [now right|exact Hc].
Qed.

Lemma resolve_from_decl (cmds : list string) (pool : list TaggedCommand) (n : nat)
      (d : TaggedCommand) :
  In d pool ->
  exists item, In item (resolve_from n cmds pool) /\
               Command item = tcCommand d /\ Tag item = tcTag d.
Proof.
  revert pool n. induction cmds as [|c cmds IH]; intros pool n Hd; cbn [resolve_from].
  - now apply leftover_items_decl.
  - destruct (adopt c pool) as [[t pool']|] eqn:E.
    + apply adopt_first in E as (b & d0 & a & -> & -> & Hc & Ht & _).
      apply in_app_iff in Hd as [Hd|[->|Hd]].
      * destruct (IH (b ++ a) (S n)) as (item & Hin & Hitem);
          [apply in_app_iff; now left|]. exists item. split; [now right|exact Hitem].
      * eexists. split; [now left|]. cbn. auto.
      * destruct (IH (b ++ a) (S n)) as (item & Hin & Hitem);
          [apply in_app_iff; now right|]. exists item. split; [now right|exact Hitem].
    + destruct (IH pool (S n) Hd) as (item & Hin & Hitem).
      exists item. split; [now right|exact Hitem].
Qed.

Lemma resolve_from_positional (cmds : list string) (pool : list TaggedCommand) (n : nat) :
  map Command (take (length cmds) (resolve_from n cmds pool)) = cmds.
Proof.
  revert pool n. induction cmds as [|c cmds IH]; intros pool n; [reflexivity|].
  cbn [resolve_from length]. destruct (adopt c pool) as [[t pool']|];
    cbn [take firstn map Command]; now rewrite IH.
Qed.

Lemma leftover_items_length (pool : list TaggedCommand) (n : nat) :
  length (leftover_items n pool) = length pool.
Proof. revert n. induction pool as [|d pool IH]; intros n; cbn; [|rewrite IH]; reflexivity. Qed.

Lemma adopt_length (cmd : string) (pool pool' : list TaggedCommand) (t : string) :
  adopt cmd pool = Some (t, pool') -> length pool = S (length pool').
Proof.
  intros E. apply adopt_first in E as (b & d & a & -> & -> & _).
  rewrite !length_app. cbn. lia.
Qed.

Lemma resolve_from_length (cmds : list string) (pool : list TaggedCommand) (n : nat) :
  (length cmds <= length (resolve_from n cmds pool) <= length cmds + length pool)%nat /\
  (length pool <= length (resolve_from n cmds pool))%nat.
Proof.
  revert pool n. induction cmds as [|c cmds IH]; intros pool n; cbn [resolve_from length].
  - rewrite leftover_items_length. lia.
  - destruct (adopt c pool) as [[t pool']|] eqn:E.
    + apply adopt_length in E. specialize (IH pool' (S n)). cbn [length]. lia.
    + specialize (IH pool (S n)). cbn [length]. lia.
Qed.

Lemma returned_work_list (tags args : list string) (items : list CommandInfo) :
  snd (processCommands tags args) = Returned items -> work_list tags args = items.
Proof.
  rewrite processCommands_returns.
  destruct (work_list tags args); [discriminate|congruence].
Qed.

Lemma parse_flag_text (d : TaggedCommand) :
  Contains (tcTag d) ":" = false -> parse_decl (flag_text d) = Some d.
Proof.
  destruct d as [t c]. unfold flag_text. cbn [tcTag tcCommand].
  rewrite Contains_char. induction t as [|x t IH]; intros H.
  - reflexivity.
  - cbn [list_ascii_of_string existsb] in H. apply orb_false_elim in H as [Hx Ht].
    rewrite str_app_cons. cbn [parse_decl]. rewrite eqb_sym, Hx, (IH Ht). reflexivity.
Qed.

Lemma inline_text_is_inline (d : TaggedCommand) :
  Contains (tcTag d) ":" = false -> is_inline (inline_text d) = true.
Proof.
  intros H. unfold inline_text. cbn [is_inline]. rewrite Ascii.eqb_refl. cbn [andb].
  rewrite <- Contains_char. apply parse_decl_Some_iff.
  rewrite (parse_flag_text d H). eauto.
Qed.

Lemma texts_decoded (ds : list TaggedCommand) :
  Forall (fun d => Contains (tcTag d) ":" = false) ds ->
  positional (map inline_text ds) = [] /\
  inline_decls (map inline_text ds) = ds /\
  flag_decls (map flag_text ds) = ds.
Proof.
  induction 1 as [|d ds Hd _ (IHp & IHi & IHf)]; [repeat split|].
  unfold positional, inline_decls, flag_decls in *. cbn [map omap list_omap].
  rewrite filter_cons, (inline_text_is_inline d Hd), (parse_flag_text d Hd).
  rewrite decide_False by discriminate.
  cbn [inline_text slice_from]. rewrite (parse_flag_text d Hd).
  split; [exact IHp|]. split; f_equal; [exact IHi|exact IHf].
Qed.

End ResolverShape.

(** X4.  When no declaration has the text of a positional argument as its
    command, every positional command is tagged with its position counted
    from 1, and all the declarations follow, inline ones first, in their
    order. *)
Theorem processCommands_without_match (tags args : list string) :
  Forall (fun c => Forall (fun d => tcCommand d <> c) (pending_pool tags args))
         (positional args) ->
  snd (processCommands tags args) =
    match default_items 0 (positional args)
          ++ leftover_items (length (positional args)) (pending_pool tags args) with
    | [] => Exited 1
    | items => Returned items
    end.
Proof.
  intros H. rewrite processCommands_returns. unfold work_list.
  now rewrite (resolve_from_unmatched _ _ 0 H).
Qed.

Lemma processCommands_without_match_witness :
  snd (processCommands ["db:pg_ctl start"] ["make"; "+web:serve"; "make"]) =
    Returned [mkCommandInfo "make" "1" 0; mkCommandInfo "make" "2" 1;
              mkCommandInfo "serve" "web" 2; mkCommandInfo "pg_ctl start" "db" 3].
Proof.
  apply (processCommands_without_match ["db:pg_ctl start"] ["make"; "+web:serve"; "make"]).
  repeat constructor; discriminate.
Defined.

(** X5.  In the list returned the positional arguments come first, their
    text unchanged and in their order, and every declaration, inline or
    flag, is the tag and command of some item: no command given on the
    command line is lost.  The list has at most one item for each
    positional argument and each declaration. *)
Theorem processCommands_keeps_commands
        (tags args : list string) (items : list CommandInfo) :
  snd (processCommands tags args) = Returned items ->
  map Command (take (length (positional args)) items) = positional args /\
  (forall d, In d (pending_pool tags args) ->
             exists item, In item items /\
                          Command item = tcCommand d /\ Tag item = tcTag d) /\
  (length items <= length (positional args) + length (pending_pool tags args))%nat.
Proof.
  intros Hret. apply returned_work_list in Hret as <-. unfold work_list.
  split; [apply resolve_from_positional|]. split.
  - intros d Hd. now apply resolve_from_decl.
  - apply resolve_from_length.
Qed.

Lemma processCommands_keeps_commands_witness :
  map Command (take 2 [mkCommandInfo "echo hello" "greeting" 0;
                       mkCommandInfo "echo world" "2" 1;
                       mkCommandInfo "ls" "files" 2])
  = ["echo hello"; "echo world"].
Proof.
  exact (proj1 (processCommands_keeps_commands
                  ["greeting:echo hello"] ["echo hello"; "+files:ls"; "echo world"]
                  _ eq_refl)).
Defined.

(** X6.  Declarations survive the command line: for names without a colon,
    the arguments [+NAME:COMMAND] and the flags [NAME:COMMAND] resolve to
    one item per declaration, with that name as tag and that command text
    unchanged (colons in it included), inline ones first. *)
Theorem processCommands_reads_declarations (inline flags : list TaggedCommand) :
  Forall (fun d => Contains (tcTag d) ":" = false) inline ->
  Forall (fun d => Contains (tcTag d) ":" = false) flags ->
  snd (processCommands (map flag_text flags) (map inline_text inline)) =
    match leftover_items 0 (inline ++ flags) with
    | [] => Exited 1
    | items => Returned items
    end.
Proof.
  intros Hi Hf. rewrite processCommands_returns. unfold work_list, pending_pool.
  destruct (texts_decoded inline Hi) as (-> & -> & _).
  destruct (texts_decoded flags Hf) as (_ & _ & ->). reflexivity.
Qed.

Lemma processCommands_reads_declarations_witness :
  snd (processCommands ["api:curl http://localhost:8080/health"] ["+web:serve :8080"]) =
    Returned [mkCommandInfo "serve :8080" "web" 0;
              mkCommandInfo "curl http://localhost:8080/health" "api" 1].
Proof.
  apply (processCommands_reads_declarations
           [mkTagged "web" "serve :8080"]
           [mkTagged "api" "curl http://localhost:8080/health"]);
    repeat constructor.
Defined.

(** ** More on the Signal Coordinator *)

Section ListenerFacts.

Variable host : Host.
Variable cfg : Config.

(** The notice of the broadcast branch. *)
Lemma forwarding_state (sig : Signal) (st : State) :
  let st1 := say cfg ("Received signal: " +:+ Signal_String sig
                      +:+ ". Forwarding to all child processes...") colorYellow st in
  same_shared st (broadcast host sig st1) /\
  lastSigIntTime (broadcast host sig st1) = lastSigIntTime st /\
  stdout (broadcast host sig st1) = stdout st1 /\
  forall pid d,
    In (pid, d) (signalled (broadcast host sig st1)) <->
    In (pid, d) (signalled st) \/
    (d = broadcast_delivery host sig /\
     exists cmdID cmd c, activeCommands st !! cmdID = Some cmd /\
                         heap st !! cmd = Some c /\
                         Process c = Some pid /\ waited c = false).
Proof.
  intros st1.
  destruct (broadcast_shared host sig st1) as ((Hh & Hn & Hr & Hm & Hc) & Hout & Ht).
  split; [now repeat split|]. split; [exact Ht|]. split; [exact Hout|].
  intros pid d. rewrite broadcast_signalled. reflexivity.
Qed.

Lemma handle_signal_forwarding (sig : Signal) (now : Z) (st : State) :
  is_SIGINT sig && negb (parallelMode st) = false ->
  handle_signal host cfg sig now st =
    let st' := broadcast host sig
                 (say cfg ("Received signal: " +:+ Signal_String sig
                           +:+ ". Forwarding to all child processes...") colorYellow st) in
    if is_SIGTERM sig || (is_SIGINT sig && parallelMode st)
    then Exit (128 + signum sig) st' else Listening st'.
Proof.
  intros Hbranch. unfold handle_signal. rewrite Hbranch. cbv zeta.
  destruct (forwarding_state sig st) as ((_ & _ & _ & Hm & _) & _).
  cbv zeta in Hm. rewrite Hm.
  destruct sig, (parallelMode st); reflexivity || discriminate.
Qed.

End ListenerFacts.

(** X7.  On SIGTERM in either mode, and on SIGINT in parallel mode whatever
    the time of an earlier interrupt, the listener prints the forwarding
    notice, sends the signal to the child of every entry of the registry
    and to nobody else, and ends the program with status 128 plus the
    signal's number; the time of the last interrupt is not touched. *)
Theorem forward_then_exit (host : Host) (cfg : Config) (sig : Signal) (now : Z)
        (st : State) :
  sig = SIGTERM \/ (sig = SIGINT /\ parallelMode st = true) ->
  exists st',
    handle_signal host cfg sig now st = Exit (128 + signum sig) st' /\
    same_shared st st' /\
    lastSigIntTime st' = lastSigIntTime st /\
    stdout st' =
      printColoredMessage cfg ("Received signal: " +:+ Signal_String sig
                               +:+ ". Forwarding to all child processes...")
                          colorYellow (stdout st) /\
    forall pid d,
      In (pid, d) (signalled st') <->
      In (pid, d) (signalled st) \/
      (d = Sig sig /\
       exists cmdID cmd c,
         activeCommands st !! cmdID = Some cmd /\ heap st !! cmd = Some c /\
         Process c = Some pid /\ waited c = false).
Proof.
  intros Hsig.
  destruct (forwarding_state host cfg sig st) as (Hshared & Htime & Hout & Hsent).
  cbv zeta in Hshared, Htime, Hout, Hsent.
  eexists. split; [|split; [exact Hshared|split; [exact Htime|split; [exact Hout|]]]].
  - rewrite handle_signal_forwarding.
    + cbv zeta. destruct Hsig as [->|[-> ->]]; reflexivity.
    + destruct Hsig as [->|[-> ->]]; reflexivity.
  - intros pid d. rewrite Hsent.
    now replace (broadcast_delivery host sig) with (Sig sig)
      by (destruct Hsig as [->|[-> _]]; reflexivity).
Qed.

(** The amended statement while [sleep 10] runs as pid 4242. *)
Lemma forward_then_exit_witness :
  exists st',
    handle_signal host0 cfg0 SIGTERM 7 (snd (sleep_after 6)) = Exit 143 st' /\
    In (4242, Sig SIGTERM) (signalled st').
Proof.
  destruct (forward_then_exit host0 cfg0 SIGTERM 7 (snd (sleep_after 6))
              (or_introl eq_refl)) as (st' & H1 & _ & _ & _ & H5).
  exists st'. split; [exact H1|].
  apply H5. right. split; [reflexivity|].
  exists "1-4242", 0%nat, (mkCmd "sleep" ["sleep"; "10"] ["PATH=/bin"] (Some 4242) false).
  repeat split; reflexivity.
Defined.

(** X8.  The listener ends the program exactly on SIGTERM, on SIGINT in
    parallel mode, and on SIGINT in sequential mode when an interrupt was
    recorded less than one second before; the status is then 128 plus the
    number of the signal. *)
Theorem handle_signal_exits_iff (host : Host) (cfg : Config) (sig : Signal) (now : Z)
        (st : State) :
  ((exists code st', handle_signal host cfg sig now st = Exit code st') <->
   sig = SIGTERM \/
   (sig = SIGINT /\
    (parallelMode st = true \/
     (lastSigIntTime st <> 0 /\ now - lastSigIntTime st < Second)))) /\
  (forall code st',
     handle_signal host cfg sig now st = Exit code st' -> code = 128 + signum sig).
Proof.
  destruct (is_SIGINT sig && negb (parallelMode st)) eqn:Hbranch.
  - apply andb_prop in Hbranch as [Hsig Hmode].
    destruct sig; try discriminate. apply negb_true_iff in Hmode.
    unfold handle_signal. rewrite Hmode, Sub_lt_Second. cbn [is_SIGINT negb andb].
    unfold IsZero.
    destruct (negb (lastSigIntTime st =? 0) && (now - lastSigIntTime st <? Second)) eqn:E.
    + apply andb_prop in E as [E1 E2]. split.
      * split; [intros _|eauto]. right. split; [reflexivity|]. right. lia.
      * now intros code st' [= <- _].
    + split; [|discriminate]. split.
      * intros (code & st' & [=]).
      * intros [[=]|(_ & [[=]|[H1 H2]])]. apply andb_false_iff in E. lia.
  - rewrite (handle_signal_forwarding host cfg sig now st Hbranch). cbv zeta.
    destruct sig, (parallelMode st) eqn:Hmode; try discriminate;
      cbn [is_SIGTERM is_SIGINT orb andb].
    + split; [|discriminate]. split; [intros (c & s & [=])|].
      intros [[=]|([=] & _)].
    + split; [|discriminate]. split; [intros (c & s & [=])|].
      intros [[=]|([=] & _)].
    + split; [|now intros c s [= <- _]]. split; [|eauto].
      intros _. right. split; [reflexivity|now left].
    + split; [|now intros c s [= <- _]]. split; [|eauto]. now left.
    + split; [|now intros c s [= <- _]]. split; [|eauto]. now left.
Qed.

(** ** [executeCommand] path by path *)

Section ExecutionPathFacts.

Variable host : Host.
Variable cfg : Config.

Lemma exec_steps_S (n : nat) (run : Run) (info : CommandInfo) (pt : Point) (st : State) :
  exec_steps (S n) host cfg run info (pt, st) =
    exec_steps n host cfg run info (exec_step host cfg run info pt st).
Proof. reflexivity. Qed.

Lemma no_envVars (l : list string) : (Z.of_nat (length l) >? 0) = false -> l = [].
Proof.
  destruct l; [reflexivity|]. rewrite Z.gtb_ltb, Z.ltb_ge. cbn [length]. lia.
Qed.

(** One statement of a state whose fields are known. *)
Ltac one_statement :=
  rewrite !exec_steps_S;
  cbn [exec_step exec_Command fst snd];
  unfold say, printf, with_heap, with_activeCommands, with_currentSequentialCmd,
         with_stdout;
  cbn [fst snd negb heap nextCmd activeCommands parallelMode lastSigIntTime
       currentSequentialCmd stdout signalled].

(** The statements to the return, splitting where the outside decides. *)
Ltac walk :=
  repeat
    lazymatch goal with
    | |- context [match StdoutPipe ?r with _ => _ end] =>
        let H := fresh "Hout" in destruct (StdoutPipe r) eqn:H
    | |- context [match StderrPipe ?r with _ => _ end] =>
        let H := fresh "Herr" in destruct (StderrPipe r) eqn:H
    | |- context [match Start ?r with _ => _ end] =>
        let H := fresh "Hstart" in destruct (Start r) eqn:H
    | |- context [if Z.of_nat (length (envVars ?c)) >? 0 then _ else _] =>
        let H := fresh "Henv" in destruct (Z.of_nat (length (envVars c)) >? 0) eqn:H
    | |- context [exec_steps _ _ _ _ _ (Returned_, _)] => rewrite !exec_steps_Returned
    | |- context [exec_steps (S _) _ _ _ _ (_, _)] => one_statement
    end.

(** The state [executeCommand] leaves, what it wrote apart. *)
Lemma executeCommand_state (run : Run) (info : CommandInfo) (st : State) :
  exists out,
    executeCommand host cfg run info st =
      mkState
        (match built_command host cfg run info with
         | Some (path, args) =>
             <[nextCmd st :=
                 mkCmd path args (environ host ++ envVars cfg)
                       (started_child host cfg run info)
                       (match started_child host cfg run info with
                        | Some _ => true
                        | None => false
                        end)]> (heap st)
         | None => heap st
         end)
        (match built_command host cfg run info with
         | Some _ => S (nextCmd st)
         | None => nextCmd st
         end)
        (match started_child host cfg run info with
         | Some pid => delete (cmdID_of (Tag info) pid) (activeCommands st)
         | None => activeCommands st
         end)
        (parallelMode st)
        (lastSigIntTime st)
        (if parallelMode st then currentSequentialCmd st
         else match built_command host cfg run info, started_child host cfg run info with
              | None, _ => currentSequentialCmd st
              | Some _, Some _ => None
              | Some _, None => Some (nextCmd st)
              end)
        out
        (signalled st).
Proof.
  unfold executeCommand.
  destruct st as [h n r p t c o s].
  cbn [heap nextCmd activeCommands parallelMode lastSigIntTime
       currentSequentialCmd stdout signalled].
  one_statement.
  destruct (needsShell (forceShell cfg) (envVars cfg) (Command info)) eqn:Hshell;
    [|destruct (shlex_Split run) as [err|[|name args]] eqn:Hsplit];
    destruct p.
  all: walk.
  all: (unfold started_child, built_command;
             rewrite Hshell, ?Hsplit, ?Hout, ?Herr, ?Hstart).
  all: (try destruct (Wait run); cbn [snd]; eexists; f_equal).
  all: rewrite ?alter_insert_eq, ?delete_insert_eq.
  all: (cbn [Path Args Env Process waited]; try reflexivity).
  all: (rewrite ?(no_envVars _ Henv), ?app_nil_r; reflexivity).
Qed.


End ExecutionPathFacts.

(** ** What [executeCommand] and [runSequential] leave behind *)

Section StatementFacts.

Variable host : Host.
Variable cfg : Config.

(** No statement sends a signal or touches the time of the last
    interrupt, and what was written stays written. *)
Lemma exec_step_listener_fields (run : Run) (info : CommandInfo) (pt : Point) (st : State) :
  lastSigIntTime (snd (exec_step host cfg run info pt st)) = lastSigIntTime st /\
  signalled (snd (exec_step host cfg run info pt st)) = signalled st /\
  exists out, stdout (snd (exec_step host cfg run info pt st)) = stdout st ++ out.
Proof.
  destruct pt; cbn [exec_step].
  - destruct (needsShell _ _ _); [|destruct (shlex_Split run) as [err|[|name args]]];
      cbn; rewrite printColoredMessage_line; eauto.
  - destruct (negb (parallelMode st)); cbn; repeat split; exists []; now rewrite app_nil_r.
  - destruct (StdoutPipe run); [|destruct (StderrPipe run);
      [|destruct (Z.of_nat (length (envVars cfg)) >? 0)]];
      cbn; unfold Print; rewrite ?printColoredMessage_line; eauto.
    repeat split. exists []. now rewrite app_nil_r.
  - destruct (Start run); cbn; rewrite ?printColoredMessage_line; eauto.
    repeat split. exists []. now rewrite app_nil_r.
  - cbn. repeat split. exists []. now rewrite app_nil_r.
  - cbn. rewrite !processOutput_writes, <- !app_assoc. eauto.
  - cbn. repeat split. exists []. now rewrite app_nil_r.
  - cbn. repeat split. exists []. now rewrite app_nil_r.
  - destruct (negb (parallelMode st)); cbn; repeat split; exists []; now rewrite app_nil_r.
  - destruct err; cbn; rewrite printColoredMessage_line; eauto.
  - cbn. repeat split. exists []. now rewrite app_nil_r.
Qed.

(** In parallel mode no statement touches the record of the current
    command. *)
Lemma exec_step_parallel_record (run : Run) (info : CommandInfo) (pt : Point) (st : State) :
  parallelMode st = true ->
  currentSequentialCmd (snd (exec_step host cfg run info pt st)) = currentSequentialCmd st.
Proof.
  intros Hmode. destruct pt; cbn [exec_step]; rewrite ?Hmode; try reflexivity.
  - destruct (needsShell _ _ _); [reflexivity|].
    now destruct (shlex_Split run) as [err|[|name args]].
  - destruct (StdoutPipe run); [reflexivity|]. destruct (StderrPipe run); [reflexivity|].
    now destruct (Z.of_nat (length (envVars cfg)) >? 0).
  - now destruct (Start run).
  - now destruct err.
Qed.

(** The statements of one execution alone keep the registry that of the
    execution. *)
Lemma registry_step (run : Run) (info : CommandInfo) (pt : Point) (st : State) :
  activeCommands st = registry_of pt ->
  activeCommands (snd (exec_step host cfg run info pt st)) =
    registry_of (fst (exec_step host cfg run info pt st)).
Proof.
  unfold registry_of. destruct pt; cbn [exec_step entry_of]; intros Hreg.
  - destruct (needsShell _ _ _); [exact Hreg|].
    now destruct (shlex_Split run) as [err|[|name args]].
  - now destruct (negb (parallelMode st)).
  - destruct (StdoutPipe run); [exact Hreg|]. destruct (StderrPipe run); [exact Hreg|].
    now destruct (Z.of_nat (length (envVars cfg)) >? 0).
  - now destruct (Start run).
  - cbn. rewrite Hreg. apply insert_empty.
  - exact Hreg.
  - exact Hreg.
  - cbn. rewrite Hreg. apply delete_singleton_eq.
  - now destruct (negb (parallelMode st)).
  - now destruct err.
  - exact Hreg.
Qed.

Lemma thread_step_fields (x y : list Thread * State) :
  thread_step host cfg x y ->
  parallelMode (snd y) = parallelMode (snd x) /\
  lastSigIntTime (snd y) = lastSigIntTime (snd x) /\
  signalled (snd y) = signalled (snd x) /\
  (exists out, stdout (snd y) = stdout (snd x) ++ out) /\
  (parallelMode (snd x) = true ->
   currentSequentialCmd (snd y) = currentSequentialCmd (snd x)) /\
  length (fst y) = length (fst x).
Proof.
  intros [pool st i t Hi Hpt Hrun]. cbn [fst snd].
  destruct (exec_step_listener_fields (t_run t) (t_info t) (t_point t) st)
    as (Ht & Hs & Hout).
  split; [apply exec_step_parallelMode|]. split; [exact Ht|]. split; [exact Hs|].
  split; [exact Hout|]. split; [apply exec_step_parallel_record|].
  apply length_insert.
Qed.

(** In parallel mode a signal the listener survives leaves the time of
    the last interrupt alone. *)
Lemma parallel_listening (sig : Signal) (now : Z) (st st' : State) :
  parallelMode st = true ->
  handle_signal host cfg sig now st = Listening st' ->
  lastSigIntTime st' = lastSigIntTime st.
Proof.
  intros Hmode. rewrite handle_signal_forwarding
    by (rewrite Hmode; now destruct sig).
  cbv zeta. destruct (forwarding_state host cfg sig st) as (_ & Ht & _).
  cbv zeta in Ht. destruct (_ || _); [discriminate|]. now intros [= <-].
Qed.

Lemma runSequential_nil (st : State) : runSequential host cfg [] st = st.
Proof. reflexivity. Qed.

End StatementFacts.

(** X9.  When [executeCommand] returns, the registry is the one it found,
    less the key of the child it started (tag, dash, pid) if it started
    one: the entry stored after [cmd.Start] never outlives the call, and no
    entry is ever there that was not there before. *)
Theorem executeCommand_registry (host : Host) (cfg : Config) (run : Run)
        (cmdInfo : CommandInfo) (st : State) :
  activeCommands (executeCommand host cfg run cmdInfo st) =
    match started_child host cfg run cmdInfo with
    | Some pid => delete (cmdID_of (Tag cmdInfo) pid) (activeCommands st)
    | None => activeCommands st
    end /\
  forall k c, activeCommands (executeCommand host cfg run cmdInfo st) !! k = Some c ->
              activeCommands st !! k = Some c.
Proof.
  destruct (executeCommand_state host cfg run cmdInfo st) as [out ->].
  cbn [activeCommands]. split; [reflexivity|].
  intros k c. destruct (started_child host cfg run cmdInfo); [|auto].
  rewrite lookup_delete_Some. tauto.
Qed.


(** X11.  The record of the current sequential command when
    [executeCommand] returns: in parallel mode it is the one found; in
    sequential mode it is the one found when no command was built, nil when
    a child was started, and the command built when the pipes or the start
    failed. *)
Theorem executeCommand_current_command (host : Host) (cfg : Config) (run : Run)
        (cmdInfo : CommandInfo) (st : State) :
  currentSequentialCmd (executeCommand host cfg run cmdInfo st) =
    if parallelMode st then currentSequentialCmd st
    else match built_command host cfg run cmdInfo,
               started_child host cfg run cmdInfo with
         | None, _ => currentSequentialCmd st
         | Some _, Some _ => None
         | Some _, None => Some (nextCmd st)
         end.
Proof.
  destruct (executeCommand_state host cfg run cmdInfo st) as [out ->]. reflexivity.
Qed.



(** X14.  [runSequential] itself sends no signal and changes neither the
    mode nor the time of the last interrupt; every command that is built
    gets an address of its own; and a registry that was empty is empty
    when it returns. *)
Theorem runSequential_leaves (host : Host) (cfg : Config)
        (commands : list (CommandInfo * Run)) (st : State) :
  signalled (runSequential host cfg commands st) = signalled st /\
  parallelMode (runSequential host cfg commands st) = parallelMode st /\
  lastSigIntTime (runSequential host cfg commands st) = lastSigIntTime st /\
  nextCmd (runSequential host cfg commands st) =
    (nextCmd st
     + length (filter (fun c => is_Some (built_command host cfg (snd c) (fst c)))
                      commands))%nat /\
  (activeCommands st = ∅ -> activeCommands (runSequential host cfg commands st) = ∅).
Proof.
  revert st. induction commands as [|[info run] commands IH]; intros st.
  - rewrite runSequential_nil. cbn. repeat split; auto.
  - rewrite runSequential_cons.
    destruct (IH (executeCommand host cfg run info st)) as (-> & -> & -> & -> & Hreg).
    destruct (executeCommand_state host cfg run info st) as [out E].
    rewrite E in Hreg |- *.
    cbn [signalled parallelMode lastSigIntTime nextCmd activeCommands] in Hreg |- *.
    split; [reflexivity|]. split; [reflexivity|]. split; [reflexivity|]. split.
    + rewrite filter_cons. cbn [fst snd].
      destruct (built_command host cfg run info) as [[path args]|].
      * rewrite decide_True by eauto. cbn [length]. lia.
      * rewrite decide_False by (intros [? [=]]). lia.
    + intros Hempty. apply Hreg. rewrite Hempty.
      destruct (started_child host cfg run info); [apply delete_empty|reflexivity].
Qed.

(** ** The pool of a run *)

Section PoolFacts.

Variable host : Host.
Variable cfg : Config.

Lemma lookup_map_Some {A B : Type} (f : A -> B) (l : list A) (j : nat) (y : B) :
  map f l !! j = Some y -> exists x, l !! j = Some x /\ y = f x.
Proof.
  revert j. induction l as [|a l IH]; intros [|j] H; try discriminate.
  - injection H as <-. eauto.
  - apply (IH j H).
Qed.

Lemma one_at_a_time_launch (commands : list (CommandInfo * Run)) :
  one_at_a_time (fst (launch false commands)) (snd (launch false commands)).
Proof.
  split; [reflexivity|]. exists 0%nat. cbn [launch fst snd]. split; [|split].
  - intros j t _ Hj. lia.
  - intros j t Hj _. apply lookup_map_Some in Hj as (c & _ & ->). reflexivity.
  - destruct commands; reflexivity.
Qed.

Lemma one_at_a_time_thread_step (x y : list Thread * State) :
  thread_step host cfg x y ->
  one_at_a_time (fst x) (snd x) -> one_at_a_time (fst y) (snd y).
Proof.
  intros [pool st i0 t Hi0 Hlive Hrun] (Hmode & i & Hdone & Hnew & Hreg).
  cbn [fst snd] in *.
  destruct Hrun as [Hpar|Hbefore]; [congruence|].
  assert (forall j tj, pool !! j = Some tj -> (j < i0)%nat -> t_point tj = Returned_)
    as Hdone0.
  { intros j tj Hj Hlt. rewrite Forall_lookup in Hbefore. apply (Hbefore j).
    now rewrite lookup_take_lt. }
  assert (i <= i0)%nat as Hle.
  { destruct (decide (i0 < i)%nat) as [Hlt|]; [|lia].
    now specialize (Hdone i0 t Hi0 Hlt). }
  assert (activeCommands st = registry_of (t_point t)) as Hreg0.
  { destruct (decide (i = i0)) as [->|Hne].
    - now rewrite Hi0 in Hreg.
    - assert (i < i0)%nat as Hlt by lia.
      destruct (lookup_lt_is_Some_2 pool i) as [ti Hti];
        [apply lookup_lt_Some in Hi0; lia|].
      rewrite Hti, (Hdone0 i ti Hti Hlt) in Hreg.
      now rewrite Hreg, (Hnew i0 t Hi0 Hlt). }
  split; [now rewrite exec_step_parallelMode|]. exists i0. split; [|split].
  - intros j tj Hj Hlt. rewrite list_lookup_insert_ne in Hj by lia. eauto.
  - intros j tj Hj Hlt. rewrite list_lookup_insert_ne in Hj by lia.
    apply (Hnew j tj Hj). lia.
  - rewrite list_lookup_insert_eq by (eapply lookup_lt_Some; eauto).
    cbn [t_point]. now apply registry_step.
Qed.

Lemma one_at_a_time_signal_step (x y : list Thread * State) :
  signal_step host cfg x y ->
  one_at_a_time (fst x) (snd x) -> one_at_a_time (fst y) (snd y).
Proof.
  intros [pool st st' sig now Hsig] (Hmode & i & Hdone & Hnew & Hreg).
  cbn [fst snd] in *.
  destruct (handle_signal_shared host cfg sig now st st' Hsig) as (_ & _ & Hr & Hm & _).
  split; [congruence|]. exists i. rewrite Hr. auto.
Qed.

Lemma registry_of_size (pt : Point) : (size (registry_of pt) <= 1)%nat.
Proof.
  unfold registry_of. destruct (entry_of pt) as [[k c]|].
  - now rewrite map_size_singleton.
  - rewrite map_size_empty. lia.
Qed.

End PoolFacts.

(** X15.  Throughout a sequential run, signals included, the executions go
    one at a time: at some position of the pool those before it have
    returned and those after it have not begun, and the registry holds at
    most one entry, that of the execution at the position. *)
Theorem sequential_one_at_a_time (host : Host) (cfg : Config)
        (commands : list (CommandInfo * Run)) (x : list Thread * State) :
  reachable host cfg false commands x ->
  one_at_a_time (fst x) (snd x) /\ (size (activeCommands (snd x)) <= 1)%nat.
Proof.
  intros Hreach.
  assert (one_at_a_time (fst x) (snd x)) as Hone.
  { unfold reachable in Hreach. pattern x. eapply rtc_ind_r; [| |exact Hreach].
    - apply one_at_a_time_launch.
    - intros y z _ [Hstep|Hstep] IH.
      + eapply one_at_a_time_thread_step; eauto.
      + eapply one_at_a_time_signal_step; eauto. }
  split; [exact Hone|].
  destruct Hone as (_ & i & _ & _ & ->).
  destruct (fst x !! i) as [t|]; [apply registry_of_size|].
  rewrite map_size_empty. lia.
Qed.

(** The registry while the output of [sleep 10] is being read. *)
Lemma sequential_one_at_a_time_witness :
  (size (activeCommands (snd (sleep_after 5))) <= 1)%nat.
Proof.
  refine (proj2 (sequential_one_at_a_time host0 cfg0 commands0
            (mkThread sleep_info sleep_run (fst (sleep_after 5))
               :: [mkThread missing_info missing_run AtBuild],
             snd (sleep_after 5)) _)).
  apply (head_steps host0 cfg0 5 sleep_info sleep_run AtBuild initial
                    [mkThread missing_info missing_run AtBuild]).
  intros k Hk. do 5 (destruct k as [|k]; [discriminate|]). lia.
Defined.

(** X16.  Throughout a parallel run, signals included, the mode stays
    parallel, no command is ever recorded as the current sequential one,
    and no time of a last interrupt is ever recorded: the double Ctrl+C
    window is never armed. *)
Theorem parallel_run_records_nothing (host : Host) (cfg : Config)
        (commands : list (CommandInfo * Run)) (x : list Thread * State) :
  reachable host cfg true commands x ->
  parallelMode (snd x) = true /\
  currentSequentialCmd (snd x) = None /\
  lastSigIntTime (snd x) = 0.
Proof.
  unfold reachable. intros Hreach. pattern x. eapply rtc_ind_r; [| |exact Hreach].
  - repeat split.
  - intros y z _ Hstep (Hmode & Hcur & Htime). destruct Hstep as [Hstep|Hstep].
    + destruct (thread_step_fields host cfg y z Hstep) as (Hm & Ht & _ & _ & Hc & _).
      rewrite Hm, Ht, (Hc Hmode). auto.
    + destruct Hstep as [pool st st' sig now Hsig]. cbn [fst snd] in *.
      destruct (handle_signal_shared host cfg sig now st st' Hsig)
        as (_ & _ & _ & Hm & Hc).
      rewrite Hm, Hc, (parallel_listening host cfg sig now st st' Hmode Hsig). auto.
Qed.

(** The first command of the example, run in parallel mode, after its
    child was started. *)
Lemma parallel_run_records_nothing_witness :
  currentSequentialCmd
    (snd (exec_steps 5 host0 cfg0 sleep_run sleep_info
                     (AtBuild, with_parallelMode true initial))) = None.
Proof.
  refine (proj1 (proj2 (parallel_run_records_nothing host0 cfg0 commands0
            (mkThread sleep_info sleep_run
               (fst (exec_steps 5 host0 cfg0 sleep_run sleep_info
                                (AtBuild, with_parallelMode true initial)))
               :: [mkThread missing_info missing_run AtBuild],
             snd (exec_steps 5 host0 cfg0 sleep_run sleep_info
                             (AtBuild, with_parallelMode true initial))) _))).
  apply (head_steps host0 cfg0 5 sleep_info sleep_run AtBuild
                    (with_parallelMode true initial)
                    [mkThread missing_info missing_run AtBuild]).
  intros k Hk. do 5 (destruct k as [|k]; [discriminate|]). lia.
Defined.

(** X17.  The executions never send a signal themselves, never change the
    mode or the time of the last interrupt, never add or drop an
    execution, and never take back what was written: whatever statements
    of whichever executions are taken, in any order. *)
Theorem executions_never_signal (host : Host) (cfg : Config)
        (x y : list Thread * State) :
  rtc (thread_step host cfg) x y ->
  signalled (snd y) = signalled (snd x) /\
  parallelMode (snd y) = parallelMode (snd x) /\
  lastSigIntTime (snd y) = lastSigIntTime (snd x) /\
  length (fst y) = length (fst x) /\
  exists out, stdout (snd y) = stdout (snd x) ++ out.
Proof.
  intros Hrun. pattern y. eapply rtc_ind_r; [| |exact Hrun].
  - repeat split. exists []. now rewrite app_nil_r.
  - intros y' z _ Hstep (Hs & Hm & Ht & Hl & out & Hout).
    destruct (thread_step_fields host cfg y' z Hstep)
      as (Hm' & Ht' & Hs' & (out' & Hout') & _ & Hl').
    rewrite Hs', Hm', Ht', Hl', Hout', Hout, <- app_assoc. eauto 10.
Qed.

(** The second command of the example taking its first statement in
    parallel mode, before the first one has begun. *)
Lemma executions_never_signal_witness :
  exists out,
    stdout (snd (exec_step host0 cfg0 missing_run missing_info AtBuild
                           (with_parallelMode true initial))) = [] ++ out.
Proof.
  refine (proj2 (proj2 (proj2 (proj2 (executions_never_signal host0 cfg0
            (fst (launch true commands0), snd (launch true commands0))
            (_, _) (rtc_once _ _
               (thread_step_at host0 cfg0 (fst (launch true commands0))
                  (snd (launch true commands0)) 1
                  (mkThread missing_info missing_run AtBuild)
                  eq_refl _ (or_introl eq_refl)))))))).
  discriminate.
Defined.

(** ** More on the Shell-Need Classifier *)

Section ClassifierMore.

Lemma has_metacharacter_app (a b : string) :
  has_metacharacter (a +:+ b) <-> has_metacharacter a \/ has_metacharacter b.
Proof.
  assert (forall c, In c (list_ascii_of_string (a +:+ b)) <->
                    In c (list_ascii_of_string a) \/ In c (list_ascii_of_string b)) as Hin.
  { intros c. induction a as [|x a IH].
    - rewrite str_app_nil. cbn. tauto.
    - rewrite str_app_cons. cbn [list_ascii_of_string In]. rewrite IH. tauto. }
  unfold has_metacharacter. split.
  - intros (c & Hc & H). apply Hin in H as [H|H]; eauto.
  - intros [(c & Hc & H)|(c & Hc & H)]; exists c; rewrite Hin; auto.
Qed.

Lemma needsShell_true (forceShell : bool) (envVars : list string) (command : string) :
  needsShell forceShell envVars command = true <->
  forceShell = true \/ envVars <> [] \/ has_metacharacter command.
Proof.
  unfold needsShell. destruct forceShell; [tauto|].
  destruct envVars as [|e envVars].
  - cbn [length Z.of_nat Z.gtb Z.compare].
    rewrite <- special_loop_metacharacter.
    destruct (special_loop command shellSpecialChars) eqn:E; [tauto|].
    destruct (later_checks_redundant command E)
      as (-> & -> & -> & -> & -> & -> & -> & -> & ->).
    cbn [orb]. split; [discriminate|]. intros [H|[H|H]]; congruence.
  - replace (Z.of_nat (length (e :: envVars)) >? 0) with true
      by (symmetry; apply Z.gtb_lt; cbn [length]; lia).
    split; [|reflexivity]. intros _. right. left. discriminate.
Qed.

End ClassifierMore.

(** X18.  A command text made of two pieces needs a shell exactly when one
    of the pieces does: the decision looks at single bytes only, never at
    what lies across the place where the pieces meet. *)
Theorem needsShell_concat (forceShell : bool) (envVars : list string) (a b : string) :
  needsShell forceShell envVars (a +:+ b) =
    needsShell forceShell envVars a || needsShell forceShell envVars b.
Proof.
  apply Bool.eq_iff_eq_true.
  rewrite orb_true_iff, !needsShell_true, has_metacharacter_app. tauto.
Qed.

(** ** Terminal colors *)

Section TerminalFacts.

Lemma char_device_bit (mode : Z) :
  negb (Z.land mode ModeCharDevice =? 0) = Z.testbit mode 21.
Proof.
  unfold ModeCharDevice. rewrite Z.shiftl_1_l.
  destruct (Z.testbit mode 21) eqn:Hbit.
  - apply negb_true_iff, Z.eqb_neq. intros H0.
    assert (Z.testbit (Z.land mode (2 ^ 21)) 21 = true) as Ht
      by (rewrite Z.land_spec, Hbit, Z.pow2_bits_true; [reflexivity|lia]).
    rewrite H0 in Ht. discriminate.
  - apply negb_false_iff, Z.eqb_eq, Z.bits_inj'. intros n Hn.
    rewrite Z.land_spec, Z.bits_0.
    destruct (Z.eq_dec n 21) as [->|Hne].
    + now rewrite Hbit.
    + rewrite (Z.pow2_bits_false 21 n) by lia. apply andb_false_r.
Qed.

End TerminalFacts.

(** X19.  Colors are used exactly when [--no-color] was not given, standard
    output could be examined and has the character-device bit (bit 21 of
    its mode) set, and NO_COLOR is empty or not set: then a message is
    written between its color and the reset sequence, and otherwise as it
    is; the file descriptor passed to [isTerminal] plays no part. *)
Theorem colors_used_iff (fd : Z) (stat : option Z) (NO_COLOR : string)
        (noColor : bool) (envVars : list string) (forceShell : bool)
        (message color : string) (stdout : list string) :
  printColoredMessage
    (mkConfig noColor (enableVirtualTerminalProcessing fd stat NO_COLOR)
              envVars forceShell)
    message color stdout =
    stdout ++ [(if negb noColor
                   && match stat with
                      | Some mode => Z.testbit mode 21
                      | None => false
                      end
                   && String.eqb NO_COLOR EmptyString
                then color +:+ message +:+ colorReset
                else message) +:+ newline].
Proof.
  rewrite printColoredMessage_line. do 2 f_equal.
  cbn [Multiplexer.noColor colorSupported].
  unfold enableVirtualTerminalProcessing, isTerminal.
  destruct stat as [mode|]; [rewrite char_device_bit|].
  - now destruct noColor, (Z.testbit mode 21), (String.eqb NO_COLOR EmptyString).
  - now destruct noColor.
Qed.

(** ** More on the Output Multiplexer *)

Section MultiplexerMore.

Lemma lines_of_final_newline (body : string) (c : ascii) :
  c <> "010"%char ->
  lines_of (body +:+ String c newline) = lines_of (body +:+ String c EmptyString).
Proof.
  intros Hc. apply Ascii.eqb_neq in Hc.
  induction body as [|x body IH].
  - rewrite !str_app_nil. cbn [lines_of newline]. rewrite Hc. reflexivity.
  - rewrite !str_app_cons. cbn [lines_of]. now rewrite IH.
Qed.

End MultiplexerMore.

(** X20.  A last line that lacks its line feed is written like one that has
    it: the output for a stream is the same whether or not the stream ends
    with a line feed. *)
Theorem processOutput_final_newline (cfg : Config) (body : string) (c : ascii)
        (e : ReadEnd) (tag streamType color : string) (stdout : list string) :
  c <> "010"%char ->
  processOutput cfg (mkReader (body +:+ String c newline) e)
                tag streamType color stdout =
    processOutput cfg (mkReader (body +:+ String c EmptyString) e)
                  tag streamType color stdout.
Proof.
  intros Hc. rewrite !processOutput_writes. unfold lines_read. cbn [content ending].
  now rewrite (lines_of_final_newline body c Hc).
Qed.

Lemma processOutput_final_newline_witness :
  processOutput cfg0 (mkReader ("one" +:+ newline +:+ "two" +:+ newline) EOF)
                "1" "out" colorGreen [] =
    processOutput cfg0 (mkReader ("one" +:+ newline +:+ "two") EOF)
                  "1" "out" colorGreen [].
Proof.
  apply (processOutput_final_newline cfg0 ("one" +:+ newline +:+ "tw") "o" EOF
           "1" "out" colorGreen []).
  discriminate.
Defined.

(** ** More on the registry keys *)

Section KeyMore.

Lemma str_length_app (a b : string) :
  String.length (a +:+ b) = (String.length a + String.length b)%nat.
Proof.
  induction a as [|x a IH]; [reflexivity|].
  rewrite str_app_cons. cbn [String.length]. now rewrite IH.
Qed.

Lemma str_app_inv_tail (a a' s : string) : a +:+ s = a' +:+ s -> a = a'.
Proof.
  revert a'. induction a as [|x a IH]; intros [|x' a'] H.
  - reflexivity.
  - apply (f_equal String.length) in H.
    rewrite str_app_nil, str_app_cons in H. cbn [String.length] in H.
    rewrite str_length_app in H. lia.
  - apply (f_equal String.length) in H.
    rewrite str_app_nil, str_app_cons in H. cbn [String.length] in H.
    rewrite str_length_app in H. lia.
  - rewrite !str_app_cons in H. injection H as -> H. f_equal. now apply IH.
Qed.

End KeyMore.

(** X21.  The key under which a child is stored in the registry, the tag,
    a dash and the pid, names the tag and the pid: two keys are equal only
    for the same tag and the same pid, also when the tags contain dashes
    or digits. *)
Theorem registry_key_names_child (tag tag' : string) (pid pid' : Z) :
  0 <= pid -> 0 <= pid' ->
  (cmdID_of tag pid = cmdID_of tag' pid' <-> tag = tag' /\ pid = pid').
Proof.
  intros Hp Hp'. split; [|now intros [-> ->]].
  intros H. pose proof (cmdID_of_inj tag tag' pid pid' Hp Hp' H) as <-.
  split; [|reflexivity]. unfold cmdID_of in H.
  now apply str_app_inv_tail in H.
Qed.

Lemma registry_key_names_child_witness :
  cmdID_of "web-1" 23 = cmdID_of "web" 123 <-> "web-1" = "web" /\ 23 = 123.
Proof. apply (registry_key_names_child "web-1" "web" 23 123); lia. Defined.
